(** * Terminal-Snake: a shallow embedding of [snake.py] and its properties

    The Python module is a single-threaded game loop over three kinds of
    actors (snake segments, one food item, one score line).  Python integers
    are unbounded, so coordinates and points are [Z]; tuples are pairs;
    the snake's [_body] list is a [list]; an [IndexError] is [None]. *)

From Stdlib Require Import ZArith List String Bool Lia DecimalString.
From Stdlib Require Import DecimalPos DecimalZ.
Import ListNotations.
Local Open Scope string_scope.
Local Open Scope list_scope.
Local Open Scope Z_scope.

(** ** Module-level constants *)

Definition MAX_X : Z := 60.
Definition MAX_Y : Z := 20.
Definition SEGMENTS : nat := 10.

Definition Pos : Type := (Z * Z)%type.

Definition pos_eqb (p q : Pos) : bool :=
  (fst p =? fst q) && (snd p =? snd q).

(** The playable sub-rectangle, the grid without its one-cell frame. *)
Definition interior (p : Pos) : Prop :=
  1 <= fst p <= MAX_X - 2 /\ 1 <= snd p <= MAX_Y - 2.

(** The four velocities the input service can return. *)
Definition unit_velocity (d : Pos) : Prop :=
  d = (0, -1) \/ d = (1, 0) \/ d = (0, 1) \/ d = (-1, 0).

Definition opposite (d : Pos) : Pos := (- fst d, - snd d).

(** ** class Actor *)

Record Actor : Type := mkActor {
  text : string;
  position : Pos;
  velocity : Pos
}.

(** [Actor.__init__] *)
Definition Actor_init : Actor := mkActor "" (0, 0) (0, 0).

Definition set_position (p : Pos) (a : Actor) : Actor :=
  mkActor (text a) p (velocity a).

Definition set_text (t : string) (a : Actor) : Actor :=
  mkActor t (position a) (velocity a).

Definition set_velocity (v : Pos) (a : Actor) : Actor :=
  mkActor (text a) (position a) v.

(** One axis of [Actor.move_next].  Python's [%] with a positive right
    operand is the floored remainder, which is [Z.modulo]. *)
Definition wrap_axis (dim old delta : Z) : Z :=
  1 + (old + delta - 1) mod (dim - 2).

Definition advance (p v : Pos) : Pos :=
  (wrap_axis MAX_X (fst p) (fst v), wrap_axis MAX_Y (snd p) (snd v)).

(** [Actor.move_next] *)
Definition Actor_move_next (a : Actor) : Actor :=
  let x := 1 + (fst (position a) + fst (velocity a) - 1) mod (MAX_X - 2) in
  let y := 1 + (snd (position a) + snd (velocity a) - 1) mod (MAX_Y - 2) in
  set_position (x, y) a.

(** [Segment.same_position_as] *)
Definition same_position_as (a : Actor) (p : Pos) : bool :=
  pos_eqb (position a) p.

(** [move_next] called [n] times on the same actor. *)
Definition move_times (n : nat) (a : Actor) : Actor :=
  Nat.iter n Actor_move_next a.

(** ** class Snake: the list [_body], head first *)

Definition Snake : Type := list Actor.

(** [Snake.get_head]: [self._body[0]], an [IndexError] on the empty list. *)
Definition get_head (s : Snake) : option Actor :=
  match s with
  | [] => None
  | head :: _ => Some head
  end.

(** [Snake.get_body]: the slice [self._body[1:]], empty on the empty list. *)
Definition get_body (s : Snake) : list Actor := tl s.

(** Python's [list.insert(1, x)]: past the end it appends. *)
Definition insert_at_1 (x : Actor) (l : list Actor) : list Actor :=
  match l with
  | [] => [x]
  | a :: rest => a :: x :: rest
  end.

(** [Snake.grow_head]: the head object is moved in place (it stays at
    index 0) and a fresh segment takes the cell it left. *)
Definition grow_head (s : Snake) : option Snake :=
  match s with
  | [] => None
  | head :: rest =>
      let position0 := position head in
      let head' := Actor_move_next head in
      let segment := set_position position0 (set_text "#" Actor_init) in
      Some (insert_at_1 segment (head' :: rest))
  end.

(** [Snake.trim_tail]: [list.pop()], an [IndexError] on the empty list. *)
Definition trim_tail (s : Snake) : option Snake :=
  match s with
  | [] => None
  | _ :: _ => Some (removelast s)
  end.

(** [Snake.move_next] *)
Definition Snake_move_next (direction : Pos) (s : Snake) : option Snake :=
  match s with
  | [] => None
  | head :: rest =>
      match grow_head (set_velocity direction head :: rest) with
      | None => None
      | Some s1 => trim_tail s1
      end
  end.

(** A loop body run [n] times, stopping at the first exception. *)
Fixpoint repeat_opt {A : Type} (n : nat) (f : A -> option A) (a : A) : option A :=
  match n with
  | O => Some a
  | S k => match f a with
           | None => None
           | Some a' => repeat_opt k f a'
           end
  end.

(** [Snake.__init__]: [int(MAX_X / 2)] truncates the float quotient. *)
Definition Snake_init : option Snake :=
  let x := Z.quot MAX_X 2 in
  let y := Z.quot MAX_Y 2 in
  let head := set_velocity (1, 0) (set_position (x, y) (set_text "8" Actor_init)) in
  repeat_opt SEGMENTS grow_head [head].

(** A run of ordinary moves, one direction per move. *)
Fixpoint Snake_moves (ds : list Pos) (s : Snake) : option Snake :=
  match ds with
  | [] => Some s
  | d :: rest => match Snake_move_next d s with
                 | None => None
                 | Some s' => Snake_moves rest s'
                 end
  end.

(** ** class Food

    [random.randint(a, b)] is Python's library function: it returns one of
    the [b - a + 1] integers of [[a, b]], each equally likely.  The
    environment supplies the sample as an index [raw]; over the indices
    [0 .. b - a] the function below is one-to-one onto [[a, b]]. *)
Definition randint (a b raw : Z) : Z := a + raw mod (b - a + 1).

(** [Food.move_random]: two draws, [x] first. *)
Definition Food_move_random (raw : Z * Z) (f : Actor) : Actor :=
  let x := randint 1 (MAX_X - 2) (fst raw) in
  let y := randint 1 (MAX_Y - 2) (snd raw) in
  set_position (x, y) f.

(** [Food.__init__] *)
Definition Food_init (raw : Z * Z) : Actor :=
  Food_move_random raw (set_text "@" Actor_init).

(** The sample space of one [move_random]: an index per interior column
    and per interior row. *)
Definition in_sample_space (raw : Z * Z) : Prop :=
  0 <= fst raw < MAX_X - 2 /\ 0 <= snd raw < MAX_Y - 2.

(** ** class Score *)

Record Score : Type := mkScore {
  score_actor : Actor;
  points : Z
}.

(** [str] of a Python [int]: decimal digits, a leading minus sign. *)
Definition str_int (n : Z) : string := NilZero.string_of_int (Z.to_int n).

(** [Score.add_points] *)
Definition add_points (p : Z) (sc : Score) : Score :=
  let total := points sc + p in
  mkScore (set_text ("Score: " ++ str_int total)%string (score_actor sc)) total.

(** [Score.__init__] *)
Definition Score_init : Score :=
  add_points 0 (mkScore (set_position (1, 0) Actor_init) 0).

(** ** class Game *)

Record Game : Type := mkGame {
  snake : Snake;
  food : Actor;
  score : Score;
  keep_playing : bool
}.

(** What the input collaborator and the random generator supply in one
    pass of the loop: the vector [get_direction()] returns, and the sample
    a [move_random] would take if the food is eaten.  A session is followed
    for as long as [get_direction] returns (ESC leaves the process from
    inside it). *)
Record Env : Type := mkEnv {
  direction : Pos;
  sample : Z * Z
}.

(** The effects of one pass, in the order they happen. *)
Inductive Event : Type :=
| EvInput (d : Pos)                        (* get_direction() returned d *)
| EvCollide                                (* _keep_playing = False *)
| EvFeed                                   (* add_points(1) *)
| EvDraw (frame : list (Pos * string)).    (* draw_actors(actors) *)

Definition is_collide (e : Event) : bool :=
  match e with EvCollide => true | _ => false end.

Definition is_feed (e : Event) : bool :=
  match e with EvFeed => true | _ => false end.

Definition is_draw (e : Event) : bool :=
  match e with EvDraw _ => true | _ => false end.

(** [occurs_before p q log]: some event satisfying [p] is followed, later
    in the log, by one satisfying [q]. *)
Fixpoint occurs_before (p q : Event -> bool) (log : list Event) : bool :=
  match log with
  | [] => false
  | e :: rest => (p e && existsb q rest) || occurs_before p q rest
  end.

Definition frames (log : list Event) : list (list (Pos * string)) :=
  flat_map (fun e => match e with EvDraw f => [f] | _ => [] end) log.

(** The methods of [Game] read and write [self], may raise, and have
    effects: a state, error and log monad. *)
Definition M (A : Type) : Type := Game -> option (A * Game * list Event).

Definition ret {A : Type} (a : A) : M A := fun g => Some (a, g, []).

Definition bind {A B : Type} (m : M A) (k : A -> M B) : M B :=
  fun g =>
    match m g with
    | None => None
    | Some (a, g1, l1) =>
        match k a g1 with
        | None => None
        | Some (b, g2, l2) => Some (b, g2, l1 ++ l2)
        end
    end.

Definition get : M Game := fun g => Some (g, g, []).
Definition put (g : Game) : M unit := fun _ => Some (tt, g, []).
Definition emit (e : Event) : M unit := fun g => Some (tt, g, [e]).
Definition lift {A : Type} (o : option A) : M A :=
  fun g => match o with None => None | Some a => Some (a, g, []) end.

Notation "x <- m ;; k" := (bind m (fun x => k))
  (at level 61, m at next level, right associativity).
Notation "m ;; k" := (bind m (fun _ => k))
  (at level 61, right associativity).

(** [Game.__init__]: the snake, then the food, then the score. *)
Definition Game_init (raw : Z * Z) : option Game :=
  match Snake_init with
  | None => None
  | Some s => Some (mkGame s (Food_init raw) Score_init true)
  end.

(** [Game._get_inputs] *)
Definition _get_inputs (d : Pos) : M unit :=
  emit (EvInput d) ;;
  g <- get ;;
  s <- lift (Snake_move_next d (snake g)) ;;
  put (mkGame s (food g) (score g) (keep_playing g)).

(** The [for] loop of [_update_snake], left at the first match. *)
Fixpoint hits (head : Actor) (segments : list Actor) : bool :=
  match segments with
  | [] => false
  | segment :: rest =>
      if same_position_as head (position segment) then true
      else hits head rest
  end.

(** [Game._update_snake] *)
Definition _update_snake : M unit :=
  g <- get ;;
  head <- lift (get_head (snake g)) ;;
  if hits head (get_body (snake g)) then
    emit EvCollide ;;
    put (mkGame (snake g) (food g) (score g) false)
  else ret tt.

(** [Game._update_score] *)
Definition _update_score (raw : Z * Z) : M unit :=
  g <- get ;;
  head <- lift (get_head (snake g)) ;;
  if same_position_as head (position (food g)) then
    s <- lift (grow_head (snake g)) ;;
    emit EvFeed ;;
    put (mkGame s (Food_move_random raw (food g)) (add_points 1 (score g))
                (keep_playing g))
  else ret tt.

(** The [(position, text)] pairs [draw_actors] reads off the actor list. *)
Definition render (actors : list Actor) : list (Pos * string) :=
  map (fun a => (position a, text a)) actors.

(** [Game._do_outputs] *)
Definition _do_outputs : M unit :=
  g <- get ;;
  head <- lift (get_head (snake g)) ;;
  let actors := [food g; score_actor (score g)] ++ [head] ++ get_body (snake g) in
  emit (EvDraw (render actors)).

(** The body of the [while] loop of [Game.play]. *)
Definition tick (e : Env) : M unit :=
  _get_inputs (direction e) ;;
  _update_snake ;;
  _update_score (sample e) ;;
  _do_outputs.

(** [Game.play], over the environment's script: the flag is tested before
    each pass; the loop waits in [get_direction] when the script is over. *)
Fixpoint play (script : list Env) (g : Game) : option (Game * list Event) :=
  match script with
  | [] => Some (g, [])
  | e :: rest =>
      if keep_playing g then
        match tick e g with
        | None => None
        | Some (_, g1, l1) =>
            match play rest g1 with
            | None => None
            | Some (g2, l2) => Some (g2, l1 ++ l2)
            end
        end
      else Some (g, [])
  end.

(** The snake as [_update_snake] and [_update_score] see it in a pass:
    after the move of [_get_inputs]. *)
Definition collision_condition (s : Snake) : Prop :=
  exists head segment,
    get_head s = Some head /\ In segment (get_body s) /\
    position head = position segment.

Definition feeding_condition (s : Snake) (f : Actor) : Prop :=
  exists head, get_head s = Some head /\ position head = position f.

(** States a session can be in: a fresh game, then passes of the loop. *)
Inductive reachable : Game -> Prop :=
| reach_init : forall raw g, Game_init raw = Some g -> reachable g
| reach_tick : forall g e g' log,
    reachable g -> keep_playing g = true ->
    tick e g = Some (tt, g', log) -> reachable g'.

(** What [_update_snake] adds to the log of a pass. *)
Definition collide_log (hit : bool) : list Event :=
  if hit then [EvCollide] else [].

(** The statement of the torus-closure property with the count
    [GRID_WIDTH * GRID_HEIGHT]. *)
Definition closes_after (n : nat) : Prop :=
  forall a : Actor,
    interior (position a) -> unit_velocity (velocity a) ->
    position (move_times n a) = position a.

(** The concrete scenario of the first pass as the specification words
    it: head at (31,10) after the move, a body segment on (30,10). *)
Definition first_move_as_specified : Prop :=
  exists s0 s1 head segment,
    Snake_init = Some s0 /\ List.length s0 = 11%nat /\
    Snake_move_next (1, 0) s0 = Some s1 /\
    get_head s1 = Some head /\ position head = (31, 10) /\
    In segment (get_body s1) /\ position segment = (30, 10) /\
    List.length s1 = 11%nat.

(** The game a session is in after a fresh start with food sample [raw]
    and the passes of [script]. *)
Definition game_after (raw : Z * Z) (script : list Env) : option Game :=
  match Game_init raw with
  | None => None
  | Some g => option_map fst (play script g)
  end.

(** What holds of the actors of every state of a session. *)
Definition well_placed (g : Game) : Prop :=
  snake g <> [] /\
  Forall (fun a => interior (position a)) (snake g) /\
  interior (position (food g)) /\
  position (score_actor (score g)) = (1, 0).

(** The renderer contract as the specification words it: every pair of
    every frame lies in the interior. *)
Definition frames_inside_interior : Prop :=
  forall g e g' log frame p t,
    reachable g -> keep_playing g = true ->
    tick e g = Some (tt, g', log) ->
    In frame (frames log) -> In (p, t) frame -> interior p.

(** The tie-break as the specification words it: when the moved head is
    on the food and on a body segment, feeding happens first, then the
    collision, both in that pass. *)
Definition feeding_precedes_collision : Prop :=
  forall g e s1 g' log,
    reachable g -> keep_playing g = true ->
    Snake_move_next (direction e) (snake g) = Some s1 ->
    feeding_condition s1 (food g) -> collision_condition s1 ->
    tick e g = Some (tt, g', log) ->
    occurs_before is_feed is_collide log = true /\
    existsb is_feed log = true /\ existsb is_collide log = true.

(** The collision phase as the specification words it: the pass that
    detects a collision ends the game and has no score update and no frame
    after the detection. *)
Definition collision_cuts_pass_short : Prop :=
  forall g e s1 g' log,
    reachable g -> keep_playing g = true ->
    Snake_move_next (direction e) (snake g) = Some s1 ->
    collision_condition s1 ->
    tick e g = Some (tt, g', log) ->
    keep_playing g' = false /\
    occurs_before is_collide is_feed log = false /\
    occurs_before is_collide is_draw log = false.

(** A snake heads in direction [d]: its head carries velocity [d] and sits
    one step of [d] past the segment behind it, the state every
    [grow_head] leaves. *)
Definition heading (s : Snake) (d : Pos) : Prop :=
  exists head neck rest,
    s = head :: neck :: rest /\ velocity head = d /\
    interior (position neck) /\
    position head = advance (position neck) d.

(** The session used to exhibit a head on the food and on the body at
    once: food drawn onto (39,10), then down, left. *)
Definition coiled_script : list Env :=
  [mkEnv (0, 1) (0, 0); mkEnv (-1, 0) (0, 0)].

(** The fresh game whose food was drawn onto (39,10), a cell under the
    snake. *)
Definition fresh_game : Game :=
  mkGame (mkActor "8" (40, 10) (1, 0)
          :: map (fun x => mkActor "#" (x, 10) (0, 0))
               [39; 38; 37; 36; 35; 34; 33; 32; 31; 30])
         (mkActor "@" (39, 10) (0, 0))
         (mkScore (mkActor "Score: 0" (1, 0) (0, 0)) 0)
         true.

(** [fresh_game] after the two passes of [coiled_script]. *)
Definition coiled_game : Game :=
  mkGame (mkActor "8" (39, 11) (-1, 0)
          :: map (fun p => mkActor "#" p (0, 0))
               [(40,11); (40,10); (39,10); (38,10); (37,10);
                (36,10); (35,10); (34,10); (33,10); (32,10)])
         (mkActor "@" (39, 10) (0, 0))
         (mkScore (mkActor "Score: 0" (1, 0) (0, 0)) 0)
         true.

(** The third pass: up, onto (39,10). *)
Definition turn_up : Env := mkEnv (0, -1) (4, 4).

(** The snake of [coiled_game] once [turn_up] has moved it. *)
Definition coiled_up : Snake :=
  mkActor "8" (39, 10) (0, -1)
  :: map (fun p => mkActor "#" p (0, 0))
       [(39,11); (40,11); (40,10); (39,10); (38,10);
        (37,10); (36,10); (35,10); (34,10); (33,10)].

(** The pass with its phases in the order the specification lists them:
    input, score/feed, collision, render. *)
Definition tick_as_specified (e : Env) : M unit :=
  _get_inputs (direction e) ;;
  _update_score (sample e) ;;
  _update_snake ;;
  _do_outputs.

(** ** class InputService

    The key codes come from the [curses] module, which is not part of the
    program: they are taken as given. *)
Record Curses : Type := mkCurses {
  KEY_UP : Z;
  KEY_RIGHT : Z;
  KEY_DOWN : Z;
  KEY_LEFT : Z;
  ESC : Z
}.

(** The values ncurses gives them. *)
Definition ncurses : Curses := mkCurses 259 261 258 260 27.

(** A Python [dict] with integer keys, in insertion order.  [d[k] = v]
    overwrites the entry of an equal key, or appends. *)
Definition Dict : Type := list (Z * Pos).

Fixpoint dict_set (k : Z) (v : Pos) (d : Dict) : Dict :=
  match d with
  | [] => [(k, v)]
  | (k', v') :: rest =>
      if k' =? k then (k, v) :: rest else (k', v') :: dict_set k v rest
  end.

(** [d.get(k, default)] *)
Fixpoint dict_get (k : Z) (default : Pos) (d : Dict) : Pos :=
  match d with
  | [] => default
  | (k', v') :: rest => if k' =? k then v' else dict_get k default rest
  end.

Record InputService : Type := mkInputService {
  _directions : Dict;
  _current : Pos
}.

(** [InputService.__init__] *)
Definition InputService_init (c : Curses) : InputService :=
  let d0 : Dict := [] in
  let d1 := dict_set (KEY_UP c) (0, -1) d0 in
  let d2 := dict_set (KEY_RIGHT c) (1, 0) d1 in
  let d3 := dict_set (KEY_DOWN c) (0, 1) d2 in
  let d4 := dict_set (KEY_LEFT c) (-1, 0) d3 in
  mkInputService d4 (1, 0).

(** [InputService.get_direction], on the key [getch()] returned (-1 when
    the 80 ms timeout ran out).  [None] is [sys.exit()]. *)
Definition get_direction (c : Curses) (key : Z) (svc : InputService)
  : option (Pos * InputService) :=
  if key =? ESC c then None
  else
    let current := dict_get key (_current svc) (_directions svc) in
    Some (current, mkInputService (_directions svc) current).

(** The directions a run of keys makes [get_direction] return, up to the
    first ESC. *)
Fixpoint directions_of (c : Curses) (keys : list Z) (svc : InputService)
  : list Pos :=
  match keys with
  | [] => []
  | key :: rest =>
      match get_direction c key svc with
      | None => []
      | Some (d, svc') => d :: directions_of c rest svc'
      end
  end.

(** ** class OutputService: the calls it makes on its window *)

Inductive WinCall : Type :=
| Clear
| Border (ls : Z)
| AddStr (row column : Z) (str : string)
| Refresh.

(** [OutputService.draw_actors] *)
Definition draw_actors (actors : list Actor) : list WinCall :=
  [Clear; Border 0]
  ++ map (fun actor =>
            let '(column, row) := position actor in
            AddStr row column (text actor)) actors
  ++ [Refresh].

(** The actor list [_do_outputs] builds. *)
Definition actors_of (g : Game) : option (list Actor) :=
  match get_head (snake g) with
  | None => None
  | Some head =>
      Some ([food g; score_actor (score g)] ++ [head] ++ get_body (snake g))
  end.

(** ** [Game.play] with an [InputService] behind [get_direction] *)

Inductive Run : Type :=
| Returned (svc : InputService) (g : Game) (log : list Event)
| SystemExit (log : list Event)
| IndexError.

Definition log_before (l : list Event) (r : Run) : Run :=
  match r with
  | Returned svc g log => Returned svc g (l ++ log)
  | SystemExit log => SystemExit (l ++ log)
  | IndexError => IndexError
  end.

(** What happens in each pass: the key [getch()] returns and the sample a
    relocation of the food would take. *)
Fixpoint play_keys (c : Curses) (script : list (Z * (Z * Z)))
    (svc : InputService) (g : Game) : Run :=
  match script with
  | [] => Returned svc g []
  | (key, raw) :: rest =>
      if keep_playing g then
        match get_direction c key svc with
        | None => SystemExit []
        | Some (d, svc') =>
            match tick (mkEnv d raw) g with
            | None => IndexError
            | Some (_, g1, l1) => log_before l1 (play_keys c rest svc' g1)
            end
        end
      else Returned svc g []
  end.

(** The states of a session of the whole program. *)
Inductive session : Curses -> InputService -> Game -> Prop :=
| session_init : forall c raw g,
    Game_init raw = Some g -> session c (InputService_init c) g
| session_pass : forall c svc g key raw d svc' g' log,
    session c svc g -> keep_playing g = true ->
    get_direction c key svc = Some (d, svc') ->
    tick (mkEnv d raw) g = Some (tt, g', log) ->
    session c svc' g'.

(** The environments [play] sees when the keys of [script] are read. *)
Fixpoint envs_of (c : Curses) (script : list (Z * (Z * Z)))
    (svc : InputService) : list Env :=
  match script with
  | [] => []
  | (key, raw) :: rest =>
      match get_direction c key svc with
      | None => []
      | Some (d, svc') => mkEnv d raw :: envs_of c rest svc'
      end
  end.

(** Consecutive positions of a chain are one unit step apart on the
    torus, each place one step ahead of the place behind it. *)
Fixpoint linked (ps : list Pos) : Prop :=
  match ps with
  | p :: (q :: _) as rest =>
      (exists d, unit_velocity d /\ p = advance q d) /\ linked rest
  | _ => True
  end.

(** An [addstr] whose first cell is in the window, off its left, right and
    bottom frame lines. *)
Definition starts_inside (call : WinCall) : Prop :=
  match call with
  | AddStr row column _ => 0 <= row <= MAX_Y - 2 /\ 1 <= column <= MAX_X - 2
  | _ => True
  end.

(** * Properties *)

Example fresh_snake_positions :
  option_map (map position) Snake_init =
  Some [(40,10); (39,10); (38,10); (37,10); (36,10); (35,10);
        (34,10); (33,10); (32,10); (31,10); (30,10)].
Proof. reflexivity. Qed.

Example fresh_score_text : text (score_actor Score_init) = "Score: 0".
Proof. reflexivity. Qed.

(** ** The loop body, written out *)

Lemma tick_unfold (e : Env) (g : Game) :
  tick e g =
  match Snake_move_next (direction e) (snake g) with
  | None => None
  | Some [] => None
  | Some (head :: body) =>
      let hit := hits head body in
      let kp := if hit then false else keep_playing g in
      if same_position_as head (position (food g)) then
        let head' := Actor_move_next head in
        let segment := set_position (position head) (set_text "#" Actor_init) in
        let food' := Food_move_random (sample e) (food g) in
        let score' := add_points 1 (score g) in
        Some (tt, mkGame (head' :: segment :: body) food' score' kp,
              EvInput (direction e) :: collide_log hit ++
              [EvFeed; EvDraw (render (food' :: score_actor score' :: head' :: segment :: body))])
      else
        Some (tt, mkGame (head :: body) (food g) (score g) kp,
              EvInput (direction e) :: collide_log hit ++
              [EvDraw (render (food g :: score_actor (score g) :: head :: body))])
  end.
Proof.
  unfold tick, _get_inputs, _update_snake, _update_score, _do_outputs,
    bind, get, put, emit, lift, ret.
  cbn [snake food score keep_playing].
  destruct (Snake_move_next (direction e) (snake g)) as [[|head body]|]; try reflexivity.
  cbn [snake food score keep_playing get_head get_body tl].
  destruct (hits head body); cbn [snake food score keep_playing get_head get_body tl];
    destruct (same_position_as head (position (food g)));
    cbn [snake food score keep_playing get_head get_body tl grow_head insert_at_1 collide_log app];
    reflexivity.
Qed.

(** ** The movement primitive *)

Lemma wrap_axis_range (dim old delta : Z) :
  2 < dim -> 1 <= wrap_axis dim old delta <= dim - 2.
Proof.
  intros Hdim. unfold wrap_axis.
  pose proof (Z.mod_pos_bound (old + delta - 1) (dim - 2)). lia.
Qed.

Lemma move_next_position (a : Actor) :
  position (Actor_move_next a) = advance (position a) (velocity a).
Proof. reflexivity. Qed.

Lemma advance_interior (p v : Pos) : interior (advance p v).
Proof.
  unfold interior, advance; cbn [fst snd].
  split; apply wrap_axis_range; unfold MAX_X, MAX_Y; lia.
Qed.

Lemma wrap_axis_back (dim old delta : Z) :
  2 < dim -> 1 <= old <= dim - 2 ->
  wrap_axis dim (wrap_axis dim old delta) (- delta) = old.
Proof.
  intros Hdim Hold. unfold wrap_axis.
  replace (1 + (old + delta - 1) mod (dim - 2) + - delta - 1)
    with ((old + delta - 1) mod (dim - 2) + - delta) by lia.
  rewrite Zplus_mod_idemp_l.
  replace (old + delta - 1 + - delta) with (old - 1) by lia.
  rewrite Z.mod_small; lia.
Qed.

Lemma advance_back (p d : Pos) :
  interior p -> advance (advance p d) (opposite d) = p.
Proof.
  intros [Hx Hy]. destruct p as [x y]. unfold advance, opposite in *.
  cbn [fst snd] in *.
  rewrite !wrap_axis_back; unfold MAX_X, MAX_Y in *; auto; lia.
Qed.

Lemma wrap_axis_iter (dim old delta k : Z) :
  wrap_axis dim (wrap_axis dim old (k * delta)) delta =
  wrap_axis dim old ((k + 1) * delta).
Proof.
  unfold wrap_axis.
  replace (1 + (old + k * delta - 1) mod (dim - 2) + delta - 1)
    with ((old + k * delta - 1) mod (dim - 2) + delta) by lia.
  rewrite Zplus_mod_idemp_l. f_equal. f_equal. lia.
Qed.

Lemma move_times_fields (n : nat) (a : Actor) :
  text (move_times n a) = text a /\ velocity (move_times n a) = velocity a.
Proof.
  induction n as [|n IH]; [split; reflexivity|].
  unfold move_times in *. cbn [Nat.iter]. exact IH.
Qed.

Lemma move_times_position (n : nat) (a : Actor) :
  position (move_times (S n) a) =
  (wrap_axis MAX_X (fst (position a)) (Z.of_nat (S n) * fst (velocity a)),
   wrap_axis MAX_Y (snd (position a)) (Z.of_nat (S n) * snd (velocity a))).
Proof.
  induction n as [|n IH].
  - unfold move_times. cbn [Nat.iter]. rewrite move_next_position.
    unfold advance. change (Z.of_nat 1) with 1. now rewrite !Z.mul_1_l.
  - change (move_times (S (S n)) a) with (Actor_move_next (move_times (S n) a)).
    rewrite move_next_position, IH.
    destruct (move_times_fields (S n) a) as [_ ->].
    unfold advance; cbn [fst snd]. rewrite !wrap_axis_iter.
    replace (Z.of_nat (S n) + 1) with (Z.of_nat (S (S n))) by lia.
    reflexivity.
Qed.

Lemma wrap_axis_period (dim old k delta : Z) :
  2 < dim -> 1 <= old <= dim - 2 ->
  wrap_axis dim old (k * (dim - 2) * delta) = old.
Proof.
  intros Hdim Hold. unfold wrap_axis.
  replace (old + k * (dim - 2) * delta - 1)
    with (old - 1 + (k * delta) * (dim - 2)) by lia.
  rewrite Z.mod_add by lia. rewrite Z.mod_small; lia.
Qed.

(** C4: whatever the position and velocity, one [move_next] lands on an
    interior cell, x in [1, 58] and y in [1, 18], each axis being
    [1 + ((old + delta - 1) mod (DIM - 2))]. *)
Theorem move_next_wraps_into_interior (a : Actor) :
  let p := position (Actor_move_next a) in
  fst p = 1 + (fst (position a) + fst (velocity a) - 1) mod (MAX_X - 2) /\
  snd p = 1 + (snd (position a) + snd (velocity a) - 1) mod (MAX_Y - 2) /\
  1 <= fst p <= MAX_X - 2 /\ 1 <= snd p <= MAX_Y - 2 /\
  1 <= fst p <= 58 /\ 1 <= snd p <= 18 /\
  text (Actor_move_next a) = text a /\
  velocity (Actor_move_next a) = velocity a.
Proof.
  cbv zeta. rewrite move_next_position.
  pose proof (advance_interior (position a) (velocity a)) as [Hx Hy].
  unfold MAX_X, MAX_Y in Hx, Hy.
  repeat split; try reflexivity; unfold MAX_X, MAX_Y; lia.
Qed.

(** C3, as stated, fails: 1200 moves to the right from (1,1) end at (41,1),
    since 1200 is not a multiple of the interior width 58. *)
Lemma closure_1200_fails : ~ closes_after (Z.to_nat (MAX_X * MAX_Y)).
Proof.
  intros H.
  specialize (H (mkActor "8" (1, 1) (1, 0))).
  assert (Hin : interior (1, 1)) by (unfold interior, MAX_X, MAX_Y; cbn; lia).
  assert (Hu : unit_velocity (1, 0)) by (unfold unit_velocity; auto).
  specialize (H Hin Hu). vm_compute in H. discriminate H.
Qed.

(** C3, amended: from an interior position, with any of the four unit
    velocities, (GRID_WIDTH - 2) * (GRID_HEIGHT - 2) = 58 * 18 = 1044 moves
    bring the actor back to where it was. *)
Theorem closure_interior_area (a : Actor) :
  interior (position a) -> unit_velocity (velocity a) ->
  move_times (Z.to_nat ((MAX_X - 2) * (MAX_Y - 2))) a = a /\
  Z.to_nat ((MAX_X - 2) * (MAX_Y - 2)) = 1044%nat.
Proof.
  intros [Hx Hy] _. split; [|reflexivity].
  change (Z.to_nat ((MAX_X - 2) * (MAX_Y - 2))) with (S 1043).
  pose proof (move_times_position 1043 a) as Hp.
  destruct (move_times_fields (S 1043) a) as [Ht Hv].
  destruct (move_times (S 1043) a) as [t p v], a as [t0 [x y] [dx dy]].
  cbn [text position velocity fst snd] in *. subst t v.
  rewrite Hp. f_equal. f_equal.
  - change (Z.of_nat 1044) with (18 * (MAX_X - 2)).
    apply wrap_axis_period; unfold MAX_X in *; lia.
  - change (Z.of_nat 1044) with (58 * (MAX_Y - 2)).
    apply wrap_axis_period; unfold MAX_Y in *; lia.
Qed.

Lemma closure_interior_area_witness :
  move_times (Z.to_nat ((MAX_X - 2) * (MAX_Y - 2))) (mkActor "8" (58, 1) (1, 0))
    = mkActor "8" (58, 1) (1, 0) /\
  Z.to_nat ((MAX_X - 2) * (MAX_Y - 2)) = 1044%nat.
Proof.
  apply (closure_interior_area (mkActor "8" (58, 1) (1, 0))).
  - unfold interior, MAX_X, MAX_Y; cbn; lia.
  - unfold unit_velocity; auto.
Defined.

(** ** The segment chain *)

Lemma grow_head_length (s : Snake) :
  s <> [] ->
  exists s', grow_head s = Some s' /\ List.length s' = S (List.length s).
Proof.
  destruct s as [|head rest]; [congruence|]. intros _.
  eexists; split; [reflexivity|]. reflexivity.
Qed.

Lemma removelast_length {A : Type} (l : list A) :
  List.length (removelast l) = pred (List.length l).
Proof.
  induction l as [|a [|b l] IH]; try reflexivity.
  change (removelast (a :: b :: l)) with (a :: removelast (b :: l)).
  cbn [List.length] in *. rewrite IH. reflexivity.
Qed.

Lemma Snake_move_next_shape (d : Pos) (head : Actor) (rest : list Actor) :
  Snake_move_next d (head :: rest) =
  Some (Actor_move_next (set_velocity d head)
        :: removelast (set_position (position head) (set_text "#" Actor_init) :: rest)).
Proof. reflexivity. Qed.

Lemma Snake_move_next_length (d : Pos) (s : Snake) :
  s <> [] ->
  exists s', Snake_move_next d s = Some s' /\ List.length s' = List.length s.
Proof.
  destruct s as [|head rest]; [congruence|]. intros _.
  rewrite Snake_move_next_shape. eexists; split; [reflexivity|].
  cbn [List.length]. rewrite removelast_length. reflexivity.
Qed.

Lemma Snake_moves_length (ds : list Pos) (s : Snake) :
  s <> [] ->
  exists s', Snake_moves ds s = Some s' /\ List.length s' = List.length s.
Proof.
  revert s. induction ds as [|d ds IH]; intros s Hs.
  - exists s. split; reflexivity.
  - destruct (Snake_move_next_length d s Hs) as (s1 & Hmove & Hlen).
    assert (Hs1 : s1 <> []).
    { destruct s1; [|congruence]. destruct s; [congruence|discriminate Hlen]. }
    destruct (IH s1 Hs1) as (s2 & Hrun & Hlen2).
    exists s2. cbn [Snake_moves]. rewrite Hmove. split; [exact Hrun|congruence].
Qed.

Lemma nonempty_of_length (s : Snake) : (1 <= List.length s)%nat -> s <> [].
Proof. destruct s; cbn; [lia|congruence]. Qed.

(** C6: a chain of length L >= 1 still has length L after any number of
    ordinary moves; one [grow_head] with no trim makes it L + 1, and
    ordinary moves after that keep it at L + 1. *)
Theorem chain_length_invariant (s : Snake) (ds ds' : list Pos) :
  (1 <= List.length s)%nat ->
  exists s1 s2 s3,
    Snake_moves ds s = Some s1 /\ List.length s1 = List.length s /\
    grow_head s1 = Some s2 /\ List.length s2 = S (List.length s) /\
    Snake_moves ds' s2 = Some s3 /\ List.length s3 = S (List.length s).
Proof.
  intros HL. pose proof (nonempty_of_length s HL) as Hs.
  destruct (Snake_moves_length ds s Hs) as (s1 & H1 & L1).
  assert (Hs1 : s1 <> []) by (apply nonempty_of_length; lia).
  destruct (grow_head_length s1 Hs1) as (s2 & H2 & L2).
  assert (Hs2 : s2 <> []) by (apply nonempty_of_length; lia).
  destruct (Snake_moves_length ds' s2 Hs2) as (s3 & H3 & L3).
  exists s1, s2, s3. repeat split; auto; congruence.
Qed.

Lemma chain_length_invariant_witness :
  exists s1 s2 s3,
    Snake_moves [(0, 1); (-1, 0)] [mkActor "8" (5, 5) (1, 0)] = Some s1 /\
    List.length s1 = 1%nat /\
    grow_head s1 = Some s2 /\ List.length s2 = 2%nat /\
    Snake_moves [(0, -1)] s2 = Some s3 /\ List.length s3 = 2%nat.
Proof.
  apply (chain_length_invariant [mkActor "8" (5, 5) (1, 0)] [(0, 1); (-1, 0)] [(0, -1)]).
  cbn. lia.
Defined.

(** C5, as stated, fails: the ten [grow_head] calls of the constructor have
    already carried the head from (30,10) to (40,10), so the first move
    takes it to (41,10) and no segment is left on (30,10). *)
Lemma first_move_as_specified_fails : ~ first_move_as_specified.
Proof.
  intros (s0 & s1 & head & segment & H0 & _ & H1 & Hh & Hp & _).
  vm_compute in H0. injection H0 as <-.
  vm_compute in H1. injection H1 as <-.
  cbn in Hh. injection Hh as <-. discriminate Hp.
Qed.

(** C5, amended: the fresh snake has 11 segments, head on (40,10) heading
    (1,0), tail on (30,10); one ordinary move to the right puts the head on
    (41,10) and a new body segment on (40,10), and the chain still has 11
    segments, (31,10) being its tail. *)
Theorem first_move_of_fresh_snake :
  exists s0 s1,
    Snake_init = Some s0 /\ List.length s0 = 11%nat /\
    get_head s0 = Some (mkActor "8" (40, 10) (1, 0)) /\
    map position s0 =
      [(40,10); (39,10); (38,10); (37,10); (36,10); (35,10);
       (34,10); (33,10); (32,10); (31,10); (30,10)] /\
    Snake_move_next (1, 0) s0 = Some s1 /\
    get_head s1 = Some (mkActor "8" (41, 10) (1, 0)) /\
    nth_error s1 1 = Some (mkActor "#" (40, 10) (0, 0)) /\
    map position s1 =
      [(41,10); (40,10); (39,10); (38,10); (37,10); (36,10);
       (35,10); (34,10); (33,10); (32,10); (31,10)] /\
    List.length s1 = 11%nat.
Proof.
  destruct Snake_init as [s0|] eqn:H0; [|discriminate H0].
  vm_compute in H0. injection H0 as <-.
  eexists; eexists. split; [reflexivity|].
  split; [reflexivity|]. split; [reflexivity|]. split; [reflexivity|].
  split; [vm_compute; reflexivity|].
  repeat split; reflexivity.
Qed.

(** ** Where the actors are *)

Lemma randint_range (a b raw : Z) : a <= b -> a <= randint a b raw <= b.
Proof.
  intros Hab. unfold randint.
  pose proof (Z.mod_pos_bound raw (b - a + 1)). lia.
Qed.

Lemma move_random_interior (raw : Z * Z) (f : Actor) :
  interior (position (Food_move_random raw f)).
Proof.
  unfold Food_move_random, interior. cbn [position set_position fst snd].
  split; apply randint_range; unfold MAX_X, MAX_Y; lia.
Qed.

Lemma Forall_removelast {A : Type} (P : A -> Prop) (l : list A) :
  Forall P l -> Forall P (removelast l).
Proof.
  induction 1 as [|a l Ha Hl IH]; [constructor|].
  destruct l as [|b l]; [constructor|].
  change (removelast (a :: b :: l)) with (a :: removelast (b :: l)).
  constructor; assumption.
Qed.

Lemma Snake_init_value :
  Snake_init =
  Some (mkActor "8" (40, 10) (1, 0)
        :: map (fun x => mkActor "#" (x, 10) (0, 0))
             [39; 38; 37; 36; 35; 34; 33; 32; 31; 30]).
Proof. reflexivity. Qed.

Lemma Game_init_well_placed (raw : Z * Z) (g : Game) :
  Game_init raw = Some g -> well_placed g.
Proof.
  unfold Game_init. rewrite Snake_init_value. intros H. injection H as <-.
  unfold well_placed. cbn [snake food score].
  split; [discriminate|]. split; [|split].
  - repeat constructor; cbn; unfold MAX_X, MAX_Y; lia.
  - apply move_random_interior.
  - reflexivity.
Qed.

Lemma tick_well_placed (e : Env) (g g' : Game) (log : list Event) :
  well_placed g -> tick e g = Some (tt, g', log) -> well_placed g'.
Proof.
  intros (Hne & Hall & Hfood & Hscore). rewrite tick_unfold.
  destruct (snake g) as [|head0 rest0] eqn:Hs; [congruence|].
  rewrite Snake_move_next_shape.
  inversion Hall as [|? ? Hhead0 Hrest0]; subst.
  set (head := Actor_move_next (set_velocity (direction e) head0)).
  set (body := removelast (set_position (position head0) (set_text "#" Actor_init) :: rest0)).
  assert (Hhead : interior (position head)).
  { unfold head. rewrite move_next_position. apply advance_interior. }
  assert (Hbody : Forall (fun a => interior (position a)) body).
  { apply Forall_removelast. constructor; [exact Hhead0|exact Hrest0]. }
  cbv zeta.
  destruct (same_position_as head (position (food g))); intros H;
    injection H as <- _; unfold well_placed; cbn [snake food score].
  - split; [discriminate|]. split; [|split].
    + constructor; [rewrite move_next_position; apply advance_interior|].
      constructor; [exact Hhead|exact Hbody].
    + apply move_random_interior.
    + exact Hscore.
  - split; [discriminate|]. split; [|split]; auto.
Qed.

Lemma reachable_well_placed (g : Game) : reachable g -> well_placed g.
Proof.
  induction 1 as [raw g Hinit|g e g' log _ IH _ Htick].
  - exact (Game_init_well_placed raw g Hinit).
  - exact (tick_well_placed e g g' log IH Htick).
Qed.

Lemma tick_total (e : Env) (g : Game) :
  snake g <> [] -> exists g' log, tick e g = Some (tt, g', log).
Proof.
  intros Hne. rewrite tick_unfold.
  destruct (snake g) as [|head0 rest0]; [congruence|].
  rewrite Snake_move_next_shape. cbv zeta.
  match goal with |- context [if ?c then _ else _] => destruct c end;
    eexists; eexists; reflexivity.
Qed.

Lemma play_reachable (script : list Env) (g g' : Game) (log : list Event) :
  reachable g -> play script g = Some (g', log) -> reachable g'.
Proof.
  revert g log. induction script as [|e rest IH]; intros g log Hr Hplay.
  - cbn in Hplay. injection Hplay as <- _. exact Hr.
  - cbn [play] in Hplay. destruct (keep_playing g) eqn:Hk.
    + destruct (tick e g) as [[[[] g1] l1]|] eqn:Ht; [|discriminate Hplay].
      destruct (play rest g1) as [[g2 l2]|] eqn:Hp; [|discriminate Hplay].
      injection Hplay as <- _.
      apply (IH g1 l2); [|exact Hp].
      exact (reach_tick g e g1 l1 Hr Hk Ht).
    + injection Hplay as <- _. exact Hr.
Qed.

Lemma game_after_reachable (raw : Z * Z) (script : list Env) (g : Game) :
  game_after raw script = Some g -> reachable g.
Proof.
  unfold game_after. destruct (Game_init raw) as [g0|] eqn:H0; [|discriminate].
  destruct (play script g0) as [[g1 log]|] eqn:Hp; [|discriminate].
  cbn. intros H. injection H as <-.
  apply (play_reachable script g0 g1 log); [|exact Hp].
  exact (reach_init raw g0 H0).
Qed.

(** ** The sample session *)

Lemma fresh_game_init : Game_init (38, 9) = Some fresh_game.
Proof. reflexivity. Qed.

Lemma coiled_game_after : game_after (38, 9) coiled_script = Some coiled_game.
Proof. vm_compute. reflexivity. Qed.

Lemma fresh_game_reachable : reachable fresh_game.
Proof. exact (reach_init _ _ fresh_game_init). Qed.

Lemma coiled_game_reachable : reachable coiled_game.
Proof. exact (game_after_reachable _ _ _ coiled_game_after). Qed.

Lemma coiled_up_move :
  Snake_move_next (direction turn_up) (snake coiled_game) = Some coiled_up.
Proof. reflexivity. Qed.

(** C7, as stated, fails: the score line is drawn at (1,0), on the top
    frame row, in the very first frame. *)
Lemma frames_inside_interior_fails : ~ frames_inside_interior.
Proof.
  intros H.
  destruct (tick (mkEnv (1, 0) (0, 0)) fresh_game) as [[[[] g'] log]|] eqn:Ht;
    [|vm_compute in Ht; discriminate Ht].
  specialize (H fresh_game (mkEnv (1, 0) (0, 0)) g' log
    (render (food g' :: score_actor (score g') :: snake g')) (1, 0) "Score: 0"
    fresh_game_reachable eq_refl Ht).
  vm_compute in Ht. injection Ht as <- <-.
  assert (Hin : interior (1, 0)).
  { apply H; cbn; auto. }
  destruct Hin as [_ [Hy _]]. cbn in Hy. lia.
Qed.

(** C7, amended: in every pass of a session one frame is handed to the
    renderer; its second pair is the score line at (1,0), which is on the
    top frame row and not in the interior; the position of every other pair
    (food, head, body segments) is in the interior. *)
Theorem frame_positions (g : Game) (e : Env) :
  reachable g -> keep_playing g = true ->
  exists g' log frame,
    tick e g = Some (tt, g', log) /\ frames log = [frame] /\
    nth_error frame 1 = Some ((1, 0), text (score_actor (score g'))) /\
    ~ interior (1, 0) /\
    forall i p t, nth_error frame i = Some (p, t) -> i <> 1%nat -> interior p.
Proof.
  intros Hr _.
  pose proof (reachable_well_placed g Hr) as Hwp.
  destruct (tick_total e g (proj1 Hwp)) as (g' & log & Ht).
  pose proof (tick_well_placed e g g' log Hwp Ht) as (Hne & Hall & Hfood & Hscore).
  assert (Hlog : exists l,
    log = l ++ [EvDraw (render (food g' :: score_actor (score g') :: snake g'))] /\
    frames l = []).
  { clear -Ht. rewrite tick_unfold in Ht.
    destruct (Snake_move_next (direction e) (snake g)) as [[|head body]|];
      try discriminate Ht.
    cbv zeta in Ht.
    destruct (same_position_as head (position (food g)));
      injection Ht as <- <-; cbn [snake food score].
    - exists (EvInput (direction e) :: collide_log (hits head body) ++ [EvFeed]).
      split; [cbn; rewrite <- app_assoc; reflexivity|].
      destruct (hits head body); reflexivity.
    - exists (EvInput (direction e) :: collide_log (hits head body)).
      split; [reflexivity|]. destruct (hits head body); reflexivity. }
  destruct Hlog as (l & -> & Hl).
  exists g', (l ++ [EvDraw (render (food g' :: score_actor (score g') :: snake g'))]).
  eexists. split; [exact Ht|]. split.
  { unfold frames in *. rewrite flat_map_app, Hl. reflexivity. }
  split; [cbn; rewrite Hscore; reflexivity|].
  split; [unfold interior; cbn; lia|].
  intros i p t Hnth Hi.
  destruct i as [|[|i]]; [| congruence |].
  - cbn in Hnth. injection Hnth as <- _. exact Hfood.
  - cbn [nth_error render map] in Hnth.
    apply nth_error_In in Hnth. apply in_map_iff in Hnth.
    destruct Hnth as (a & Ha & Hin). injection Ha as <- _.
    rewrite Forall_forall in Hall. exact (Hall a Hin).
Qed.

Lemma frame_positions_witness :
  exists g' log frame,
    tick (mkEnv (1, 0) (0, 0)) fresh_game = Some (tt, g', log) /\
    frames log = [frame] /\
    nth_error frame 1 = Some ((1, 0), text (score_actor (score g'))) /\
    ~ interior (1, 0) /\
    forall i p t, nth_error frame i = Some (p, t) -> i <> 1%nat -> interior p.
Proof.
  apply (frame_positions fresh_game (mkEnv (1, 0) (0, 0))).
  - apply (reach_init (38, 9)). reflexivity.
  - reflexivity.
Defined.

(** ** Collision and feeding *)

Lemma pos_eqb_eq (p q : Pos) : pos_eqb p q = true <-> p = q.
Proof.
  destruct p as [x y], q as [x' y']. unfold pos_eqb. cbn [fst snd].
  rewrite andb_true_iff, !Z.eqb_eq. split.
  - intros [-> ->]. reflexivity.
  - intros H. injection H as -> ->. auto.
Qed.

Lemma hits_true_iff (head : Actor) (segments : list Actor) :
  hits head segments = true <->
  exists segment, In segment segments /\ position head = position segment.
Proof.
  induction segments as [|seg rest IH]; cbn [hits].
  - split; [discriminate|]. intros (x & [] & _).
  - unfold same_position_as.
    destruct (pos_eqb (position head) (position seg)) eqn:E.
    + split; [|reflexivity]. intros _. exists seg. split; [left; reflexivity|].
      now apply pos_eqb_eq.
    + rewrite IH. split.
      * intros (x & Hin & Hp). exists x. split; [right; exact Hin|exact Hp].
      * intros (x & [<-|Hin] & Hp).
        -- apply pos_eqb_eq in Hp. congruence.
        -- exists x. split; assumption.
Qed.

Lemma collision_condition_hits (head : Actor) (body : list Actor) :
  collision_condition (head :: body) <-> hits head body = true.
Proof.
  rewrite hits_true_iff. unfold collision_condition. cbn [get_head get_body tl].
  split.
  - intros (h & seg & Hh & Hin & Hp). injection Hh as <-. exists seg. auto.
  - intros (seg & Hin & Hp). exists head, seg. auto.
Qed.

Lemma feeding_condition_same (head : Actor) (body : list Actor) (f : Actor) :
  feeding_condition (head :: body) f <->
  same_position_as head (position f) = true.
Proof.
  unfold feeding_condition, same_position_as. rewrite pos_eqb_eq.
  cbn [get_head]. split.
  - intros (h & Hh & Hp). injection Hh as <-. exact Hp.
  - intros Hp. exists head. auto.
Qed.

Lemma moved_snake_nonempty (d : Pos) (s s1 : Snake) :
  Snake_move_next d s = Some s1 ->
  exists head body, s1 = head :: body /\ List.length s1 = List.length s.
Proof.
  destruct s as [|head0 rest0]; [discriminate|]. intros H.
  destruct (Snake_move_next_length d (head0 :: rest0)) as (s' & Hs' & Hlen);
    [discriminate|].
  rewrite H in Hs'. injection Hs' as <-.
  destruct s1 as [|head body]; [discriminate Hlen|].
  exists head, body. split; [reflexivity|exact Hlen].
Qed.

Lemma play_stops_when_ended (script : list Env) (g : Game) :
  keep_playing g = false -> play script g = Some (g, []).
Proof. intros Hk. destruct script; cbn [play]; [|rewrite Hk]; reflexivity. Qed.

Lemma play_one_pass (e : Env) (rest : list Env) (g g' : Game) (log : list Event) :
  keep_playing g = true -> tick e g = Some (tt, g', log) ->
  keep_playing g' = false -> play (e :: rest) g = Some (g', log).
Proof.
  intros Hk Ht Hk'. cbn [play]. rewrite Hk, Ht.
  rewrite (play_stops_when_ended rest g' Hk'), app_nil_r. reflexivity.
Qed.

Lemma tick_points (e : Env) (g g' : Game) (log : list Event) (s1 : Snake) :
  Snake_move_next (direction e) (snake g) = Some s1 ->
  tick e g = Some (tt, g', log) ->
  (feeding_condition s1 (food g) -> points (score g') = points (score g) + 1) /\
  (~ feeding_condition s1 (food g) -> points (score g') = points (score g)).
Proof.
  intros Hm. rewrite tick_unfold, Hm.
  destruct (moved_snake_nonempty _ _ _ Hm) as (head & body & -> & _).
  rewrite feeding_condition_same. cbv zeta.
  destruct (same_position_as head (position (food g)));
    intros H; injection H as <- _; cbn [score points add_points];
    split; intros Hf; try reflexivity; try discriminate Hf; congruence.
Qed.

Lemma tick_points_le (e : Env) (g g' : Game) (log : list Event) :
  tick e g = Some (tt, g', log) -> points (score g) <= points (score g').
Proof.
  rewrite tick_unfold.
  destruct (Snake_move_next (direction e) (snake g)) as [[|head body]|];
    try discriminate.
  cbv zeta. destruct (same_position_as head (position (food g)));
    intros H; injection H as <- _; cbn [score points add_points]; lia.
Qed.

Lemma play_points_le (script : list Env) (g g' : Game) (log : list Event) :
  play script g = Some (g', log) -> points (score g) <= points (score g').
Proof.
  revert g log. induction script as [|e rest IH]; intros g log Hplay.
  - cbn in Hplay. injection Hplay as <- _. lia.
  - cbn [play] in Hplay. destruct (keep_playing g).
    + destruct (tick e g) as [[[[] g1] l1]|] eqn:Ht; [|discriminate Hplay].
      destruct (play rest g1) as [[g2 l2]|] eqn:Hp; [|discriminate Hplay].
      injection Hplay as <- _.
      pose proof (tick_points_le _ _ _ _ Ht). pose proof (IH _ _ Hp). lia.
    + injection Hplay as <- _. lia.
Qed.

(** C9: over any run of passes the score does not go down, and a pass in
    which the moved head is on the food adds exactly 1 (any other pass
    adds nothing). *)
Theorem score_monotone (script : list Env) (g g1 : Game) (log1 : list Event)
    (e : Env) (s1 : Snake) :
  play script g = Some (g1, log1) ->
  Snake_move_next (direction e) (snake g1) = Some s1 ->
  points (score g) <= points (score g1) /\
  exists g2 log2,
    tick e g1 = Some (tt, g2, log2) /\
    points (score g1) <= points (score g2) /\
    (feeding_condition s1 (food g1) ->
       points (score g2) = points (score g1) + 1 /\
       text (score_actor (score g2)) =
         ("Score: " ++ str_int (points (score g1) + 1))%string) /\
    (~ feeding_condition s1 (food g1) -> points (score g2) = points (score g1)).
Proof.
  intros Hplay Hm. split; [exact (play_points_le _ _ _ _ Hplay)|].
  assert (Hne : snake g1 <> []) by (destruct (snake g1); [discriminate Hm|congruence]).
  destruct (tick_total e g1 Hne) as (g2 & log2 & Ht).
  exists g2, log2. split; [exact Ht|].
  split; [exact (tick_points_le _ _ _ _ Ht)|].
  destruct (tick_points _ _ _ _ _ Hm Ht) as [Hfed Hnot].
  split; [|exact Hnot].
  intros Hf. split; [exact (Hfed Hf)|].
  rewrite tick_unfold, Hm in Ht.
  destruct (moved_snake_nonempty _ _ _ Hm) as (head & body & -> & _).
  apply feeding_condition_same in Hf. cbv zeta in Ht. rewrite Hf in Ht.
  injection Ht as <- _. reflexivity.
Qed.

Lemma score_monotone_witness :
  points (score fresh_game) <= points (score coiled_game) /\
  exists g2 log2,
    tick turn_up coiled_game = Some (tt, g2, log2) /\
    points (score coiled_game) <= points (score g2) /\
    (feeding_condition coiled_up (food coiled_game) ->
       points (score g2) = points (score coiled_game) + 1 /\
       text (score_actor (score g2)) =
         ("Score: " ++ str_int (points (score coiled_game) + 1))%string) /\
    (~ feeding_condition coiled_up (food coiled_game) ->
       points (score g2) = points (score coiled_game)).
Proof.
  eapply (score_monotone coiled_script fresh_game coiled_game _ turn_up coiled_up).
  - vm_compute. reflexivity.
  - reflexivity.
Defined.

Lemma tick_both_fire (e : Env) (g : Game) (head : Actor) (body : list Actor) :
  Snake_move_next (direction e) (snake g) = Some (head :: body) ->
  hits head body = true ->
  same_position_as head (position (food g)) = true ->
  exists g' frame,
    tick e g = Some (tt, g', [EvInput (direction e); EvCollide; EvFeed; EvDraw frame]) /\
    keep_playing g' = false /\
    points (score g') = points (score g) + 1 /\
    snake g' = Actor_move_next head
               :: set_position (position head) (set_text "#" Actor_init) :: body /\
    food g' = Food_move_random (sample e) (food g).
Proof.
  intros Hm Hhit Hfed. rewrite tick_unfold, Hm. cbv zeta. rewrite Hhit, Hfed.
  eexists; eexists. split; [reflexivity|]. repeat split; reflexivity.
Qed.

(** C1, as stated, fails: in the session that starts with the food on
    (39,10) and turns down, left, up, the third pass has the head on the
    food and on a body segment, and its collision comes first: its log is
    input, collision, feeding, frame. *)
Lemma feeding_precedes_collision_fails : ~ feeding_precedes_collision.
Proof.
  intros H.
  destruct (tick turn_up coiled_game) as [[[[] g'] log]|] eqn:Ht;
    [|vm_compute in Ht; discriminate Ht].
  destruct (H coiled_game turn_up coiled_up g' log
              coiled_game_reachable eq_refl coiled_up_move) as [Hord _].
  - apply feeding_condition_same. reflexivity.
  - apply collision_condition_hits. reflexivity.
  - exact Ht.
  - vm_compute in Ht. injection Ht as <- <-.
    vm_compute in Hord. discriminate Hord.
Qed.

(** C1, amended: in a pass whose moved head is both on the food and on a
    body segment, the collision phase runs first and the feeding phase
    second, each on the snake as the move left it, and both fire in that
    pass: the game is ended, the score is one higher, the chain one longer
    and the food relocated. *)
Theorem collision_precedes_feeding (g : Game) (e : Env) (s1 : Snake) :
  Snake_move_next (direction e) (snake g) = Some s1 ->
  feeding_condition s1 (food g) -> collision_condition s1 ->
  exists g' frame,
    tick e g = Some (tt, g', [EvInput (direction e); EvCollide; EvFeed; EvDraw frame]) /\
    occurs_before is_collide is_feed
      [EvInput (direction e); EvCollide; EvFeed; EvDraw frame] = true /\
    occurs_before is_feed is_collide
      [EvInput (direction e); EvCollide; EvFeed; EvDraw frame] = false /\
    keep_playing g' = false /\
    points (score g') = points (score g) + 1 /\
    List.length (snake g') = S (List.length (snake g)) /\
    food g' = Food_move_random (sample e) (food g).
Proof.
  intros Hm Hf Hc.
  destruct (moved_snake_nonempty _ _ _ Hm) as (head & body & -> & Hlen).
  apply feeding_condition_same in Hf. apply collision_condition_hits in Hc.
  destruct (tick_both_fire e g head body Hm Hc Hf)
    as (g' & frame & Ht & Hk & Hp & Hs & Hfood).
  exists g', frame. split; [exact Ht|].
  split; [reflexivity|]. split; [reflexivity|].
  split; [exact Hk|]. split; [exact Hp|]. split; [|exact Hfood].
  rewrite Hs, <- Hlen. reflexivity.
Qed.

Lemma collision_precedes_feeding_witness :
  exists g' frame,
    tick turn_up coiled_game =
      Some (tt, g', [EvInput (direction turn_up); EvCollide; EvFeed; EvDraw frame]) /\
    occurs_before is_collide is_feed
      [EvInput (direction turn_up); EvCollide; EvFeed; EvDraw frame] = true /\
    occurs_before is_feed is_collide
      [EvInput (direction turn_up); EvCollide; EvFeed; EvDraw frame] = false /\
    keep_playing g' = false /\
    points (score g') = points (score coiled_game) + 1 /\
    List.length (snake g') = S (List.length (snake coiled_game)) /\
    food g' = Food_move_random (sample turn_up) (food coiled_game).
Proof.
  apply (collision_precedes_feeding coiled_game turn_up coiled_up).
  - reflexivity.
  - eexists. split; reflexivity.
  - exists (mkActor "8" (39, 10) (0, -1)), (mkActor "#" (39, 10) (0, 0)).
    split; [reflexivity|]. split; [|reflexivity].
    cbn. tauto.
Defined.

(** The order of the two phases is observable: on the third pass of the
    sample session the loop as written ends the game, while the loop with
    feeding first would move the head off the body before the check and
    play on. *)
Lemma phase_order_matters :
  option_map (fun r => keep_playing (snd (fst r))) (tick turn_up coiled_game)
    = Some false /\
  option_map (fun r => keep_playing (snd (fst r)))
    (tick_as_specified turn_up coiled_game) = Some true.
Proof. split; vm_compute; reflexivity. Qed.

(** C2, as stated, fails: the colliding third pass of the same session
    still updates the score and still hands a frame to the renderer. *)
Lemma collision_cuts_pass_short_fails : ~ collision_cuts_pass_short.
Proof.
  intros H.
  destruct (tick turn_up coiled_game) as [[[[] g'] log]|] eqn:Ht;
    [|vm_compute in Ht; discriminate Ht].
  destruct (H coiled_game turn_up coiled_up g' log
              coiled_game_reachable eq_refl coiled_up_move) as (_ & _ & Hdraw).
  - apply collision_condition_hits. reflexivity.
  - exact Ht.
  - vm_compute in Ht. injection Ht as <- <-.
    vm_compute in Hdraw. discriminate Hdraw.
Qed.

(** C2, amended: a pass whose moved head is on a body segment ends the
    game, and no later pass runs; the rest of that pass still runs: the
    score phase (one point more exactly when the head is also on the food)
    and the render phase, whose single frame follows the detection. *)
Theorem collision_ends_game_after_pass (g : Game) (e : Env) (s1 : Snake)
    (rest : list Env) :
  keep_playing g = true ->
  Snake_move_next (direction e) (snake g) = Some s1 ->
  collision_condition s1 ->
  exists g' log frame,
    tick e g = Some (tt, g', log) /\
    keep_playing g' = false /\
    play (e :: rest) g = Some (g', log) /\
    frames log = [frame] /\
    occurs_before is_collide is_draw log = true /\
    (feeding_condition s1 (food g) ->
       points (score g') = points (score g) + 1 /\
       occurs_before is_collide is_feed log = true) /\
    (~ feeding_condition s1 (food g) -> points (score g') = points (score g)).
Proof.
  intros Hk Hm Hc.
  destruct (moved_snake_nonempty _ _ _ Hm) as (head & body & -> & Hlen).
  apply collision_condition_hits in Hc.
  assert (Ht : exists g' log, tick e g = Some (tt, g', log)).
  { apply tick_total. destruct (snake g); [discriminate Hm|congruence]. }
  destruct Ht as (g' & log & Ht).
  pose proof (tick_points _ _ _ _ _ Hm Ht) as [Hfed Hnot].
  pose proof Ht as Hu. rewrite tick_unfold, Hm in Hu. cbv zeta in Hu.
  rewrite Hc in Hu.
  destruct (same_position_as head (position (food g))) eqn:Hsame;
    injection Hu as Hg' Hlog; exists g', log; eexists;
    (split; [exact Ht|]);
    (assert (Hk' : keep_playing g' = false) by (rewrite <- Hg'; reflexivity));
    (split; [exact Hk'|]);
    (split; [exact (play_one_pass e rest g g' log Hk Ht Hk')|]);
    rewrite <- Hlog; (split; [reflexivity|]); (split; [reflexivity|]);
    (split; [|exact Hnot]); intros Hf.
  - split; [exact (Hfed Hf)|reflexivity].
  - apply feeding_condition_same in Hf. congruence.
Qed.

Lemma collision_ends_game_after_pass_witness :
  exists g' log frame,
    tick turn_up coiled_game = Some (tt, g', log) /\
    keep_playing g' = false /\
    play [turn_up; mkEnv (1, 0) (0, 0)] coiled_game = Some (g', log) /\
    frames log = [frame] /\
    occurs_before is_collide is_draw log = true /\
    (feeding_condition coiled_up (food coiled_game) ->
       points (score g') = points (score coiled_game) + 1 /\
       occurs_before is_collide is_feed log = true) /\
    (~ feeding_condition coiled_up (food coiled_game) ->
       points (score g') = points (score coiled_game)).
Proof.
  apply (collision_ends_game_after_pass coiled_game turn_up coiled_up
           [mkEnv (1, 0) (0, 0)]).
  - reflexivity.
  - reflexivity.
  - exists (mkActor "8" (39, 10) (0, -1)), (mkActor "#" (39, 10) (0, 0)).
    split; [reflexivity|]. split; [|reflexivity].
    cbn. tauto.
Defined.

(** ** Reversing *)

Lemma heading_fresh_snake (s : Snake) : Snake_init = Some s -> heading s (1, 0).
Proof.
  rewrite Snake_init_value. intros H. injection H as <-.
  do 3 eexists. split; [reflexivity|]. split; [reflexivity|].
  split; [unfold interior, MAX_X, MAX_Y; cbn; lia|reflexivity].
Qed.

Lemma heading_after_move (d : Pos) (head neck : Actor) (rest : list Actor) :
  interior (position head) ->
  exists s1, Snake_move_next d (head :: neck :: rest) = Some s1 /\ heading s1 d.
Proof.
  intros Hin. rewrite Snake_move_next_shape.
  change (removelast (set_position (position head) (set_text "#" Actor_init)
                      :: neck :: rest))
    with (set_position (position head) (set_text "#" Actor_init)
          :: removelast (neck :: rest)).
  eexists. split; [reflexivity|].
  do 3 eexists. split; [reflexivity|]. split; [reflexivity|].
  split; [exact Hin|reflexivity].
Qed.

Lemma reversed_snake (d : Pos) (head neck third : Actor) (rest : list Actor) :
  Snake_move_next (opposite d) (head :: neck :: third :: rest) =
  Some (Actor_move_next (set_velocity (opposite d) head)
        :: set_position (position head) (set_text "#" Actor_init)
        :: neck :: removelast (third :: rest)).
Proof. reflexivity. Qed.

(** C8: a snake of at least 3 segments heading in a unit direction that is
    given the opposite direction moves its head onto its third segment, so
    the collision check of that very pass fires: the pass ends with the
    game ended and no later pass runs. *)
Theorem reversal_collides (g : Game) (e : Env) (d : Pos) (rest : list Env) :
  (3 <= List.length (snake g))%nat ->
  unit_velocity d -> heading (snake g) d ->
  direction e = opposite d -> keep_playing g = true ->
  exists s1 g' log,
    Snake_move_next (opposite d) (snake g) = Some s1 /\
    collision_condition s1 /\
    tick e g = Some (tt, g', log) /\
    In EvCollide log /\
    keep_playing g' = false /\
    play (e :: rest) g = Some (g', log).
Proof.
  intros Hlen _ (head & neck & tail & Hs & _ & Hneck & Hhead) He Hk.
  rewrite Hs in Hlen. destruct tail as [|third tail]; [cbn in Hlen; lia|].
  set (head' := Actor_move_next (set_velocity (opposite d) head)).
  set (body := set_position (position head) (set_text "#" Actor_init)
               :: neck :: removelast (third :: tail)).
  assert (Hm : Snake_move_next (opposite d) (snake g) = Some (head' :: body)).
  { rewrite Hs. apply reversed_snake. }
  assert (Hhit : hits head' body = true).
  { apply hits_true_iff. exists neck. split; [right; left; reflexivity|].
    unfold head'. rewrite move_next_position. cbn [position velocity set_velocity].
    rewrite Hhead. apply advance_back. exact Hneck. }
  assert (Ht : exists g' log, tick e g = Some (tt, g', log)).
  { apply tick_total. rewrite Hs. discriminate. }
  destruct Ht as (g' & log & Ht).
  pose proof Ht as Hu. rewrite tick_unfold, He, Hm in Hu. cbv zeta in Hu.
  rewrite Hhit in Hu.
  assert (Hk' : keep_playing g' = false /\ In EvCollide log).
  { destruct (same_position_as head' (position (food g)));
      injection Hu as <- <-; split; cbn; auto. }
  destruct Hk' as [Hk' Hin].
  exists (head' :: body), g', log.
  split; [exact Hm|]. split; [apply collision_condition_hits; exact Hhit|].
  split; [exact Ht|]. split; [exact Hin|]. split; [exact Hk'|].
  exact (play_one_pass e rest g g' log Hk Ht Hk').
Qed.

Lemma reversal_collides_witness :
  exists s1 g' log,
    Snake_move_next (opposite (1, 0)) (snake fresh_game) = Some s1 /\
    collision_condition s1 /\
    tick (mkEnv (-1, 0) (0, 0)) fresh_game = Some (tt, g', log) /\
    In EvCollide log /\
    keep_playing g' = false /\
    play [mkEnv (-1, 0) (0, 0); mkEnv (-1, 0) (0, 0)] fresh_game = Some (g', log).
Proof.
  apply (reversal_collides fresh_game (mkEnv (-1, 0) (0, 0)) (1, 0)
           [mkEnv (-1, 0) (0, 0)]).
  - cbn. lia.
  - right. left. reflexivity.
  - exists (mkActor "8" (40, 10) (1, 0)), (mkActor "#" (39, 10) (0, 0)).
    eexists. split; [reflexivity|]. split; [reflexivity|].
    split; [|reflexivity]. unfold interior, MAX_X, MAX_Y. cbn. lia.
  - reflexivity.
  - reflexivity.
Defined.

(** ** Food *)

Lemma randint_index (a b v : Z) : a <= v <= b -> randint a b (v - a) = v.
Proof. intros Hv. unfold randint. rewrite Z.mod_small; lia. Qed.

Lemma randint_index_unique (a b r v : Z) :
  0 <= r < b - a + 1 -> randint a b r = v -> r = v - a.
Proof. unfold randint. intros Hr <-. rewrite Z.mod_small; lia. Qed.

(** C10: constructing a [Food] is [move_random] on the fresh "@" actor, the
    operation a feeding pass runs; the result is an interior cell, each of
    the 58 * 18 interior cells being the outcome of exactly one sample of
    the draw; the snake is not consulted: every cell under the fresh snake
    is a possible first food cell. *)
Theorem food_constructed_at_random_interior (raw : Z * Z) :
  Food_init raw = Food_move_random raw (set_text "@" Actor_init) /\
  interior (position (Food_init raw)) /\
  (forall p, interior p ->
     exists r, in_sample_space r /\ position (Food_init r) = p /\
       forall r', in_sample_space r' -> position (Food_init r') = p -> r' = r) /\
  (forall g e s1 g' log,
     Snake_move_next (direction e) (snake g) = Some s1 ->
     feeding_condition s1 (food g) ->
     tick e g = Some (tt, g', log) ->
     food g' = Food_move_random (sample e) (food g)) /\
  (forall s segment, Snake_init = Some s -> In segment s ->
     exists r g, in_sample_space r /\ Game_init r = Some g /\
       snake g = s /\ position (food g) = position segment).
Proof.
  split; [reflexivity|]. split; [apply move_random_interior|].
  split; [|split].
  - intros [x y] [Hx Hy]. cbn [fst snd] in Hx, Hy. unfold MAX_X, MAX_Y in *.
    exists (x - 1, y - 1). split; [|split].
    + unfold in_sample_space, MAX_X, MAX_Y; cbn [fst snd]; lia.
    + unfold Food_init, Food_move_random, MAX_X, MAX_Y.
      cbn [position set_position fst snd].
      rewrite !randint_index by lia. reflexivity.
    + intros [rx ry] [Hrx Hry] Hp. cbn [fst snd] in Hrx, Hry.
      unfold Food_init, Food_move_random, MAX_X, MAX_Y in *.
      cbn [position set_position fst snd] in Hp.
      pose proof (f_equal fst Hp) as Hpx. pose proof (f_equal snd Hp) as Hpy.
      cbn [fst snd] in Hpx, Hpy.
      apply randint_index_unique in Hpx; [|lia].
      apply randint_index_unique in Hpy; [|lia].
      congruence.
  - intros g e s1 g' log Hm Hf Ht.
    destruct (moved_snake_nonempty _ _ _ Hm) as (head & body & -> & _).
    apply feeding_condition_same in Hf.
    rewrite tick_unfold, Hm in Ht. cbv zeta in Ht. rewrite Hf in Ht.
    injection Ht as <- _. reflexivity.
  - intros s segment Hs Hin.
    assert (Hint : interior (position segment)).
    { pose proof (Game_init_well_placed (0, 0)) as Hwp.
      unfold Game_init in Hwp. rewrite Hs in Hwp.
      destruct (Hwp _ eq_refl) as (_ & Hall & _). cbn [snake] in Hall.
      rewrite Forall_forall in Hall. exact (Hall segment Hin). }
    destruct (position segment) as [x y] eqn:Hp.
    destruct Hint as [Hx Hy]. cbn [fst snd] in Hx, Hy. unfold MAX_X, MAX_Y in *.
    exists (x - 1, y - 1). unfold Game_init. rewrite Hs. eexists.
    split; [unfold in_sample_space, MAX_X, MAX_Y; cbn [fst snd]; lia|].
    split; [reflexivity|]. split; [reflexivity|].
    cbn [food]. unfold Food_init, Food_move_random, MAX_X, MAX_Y.
    cbn [position set_position fst snd].
    rewrite !randint_index by lia. reflexivity.
Qed.

Lemma food_constructed_at_random_interior_witness :
  exists r, in_sample_space r /\ position (Food_init r) = (39, 10) /\
    forall r', in_sample_space r' -> position (Food_init r') = (39, 10) -> r' = r.
Proof.
  destruct (food_constructed_at_random_interior (38, 9)) as (_ & _ & H & _).
  apply (H (39, 10)). unfold interior, MAX_X, MAX_Y. cbn. lia.
Defined.


(** * Further properties of the code *)

(** ** Actor: steps on the torus *)

Lemma wrap_axis_step (dim old delta : Z) :
  3 < dim -> 1 <= old <= dim - 2 -> -1 <= delta <= 1 ->
  wrap_axis dim old delta =
    if dim - 2 <? old + delta then 1
    else if old + delta <? 1 then dim - 2
    else old + delta.
Proof.
  intros Hdim Hold Hdelta. unfold wrap_axis.
  destruct (dim - 2 <? old + delta) eqn:Hhi; [apply Z.ltb_lt in Hhi|apply Z.ltb_ge in Hhi].
  - replace (old + delta - 1) with (0 + 1 * (dim - 2)) by lia.
    rewrite Z.mod_add by lia. rewrite Z.mod_small; lia.
  - destruct (old + delta <? 1) eqn:Hlo; [apply Z.ltb_lt in Hlo|apply Z.ltb_ge in Hlo].
    + replace (old + delta - 1) with (dim - 3 + (-1) * (dim - 2)) by lia.
      rewrite Z.mod_add by lia. rewrite Z.mod_small; lia.
    + rewrite Z.mod_small; lia.
Qed.

(** X1: One step from an interior cell with a unit velocity adds the velocity,
    except across the frame: right of column 58 is column 1, left of
    column 1 is column 58, below row 18 is row 1, above row 1 is row 18. *)
Theorem move_next_steps_or_wraps (a : Actor) :
  interior (position a) -> unit_velocity (velocity a) ->
  let x := fst (position a) + fst (velocity a) in
  let y := snd (position a) + snd (velocity a) in
  position (Actor_move_next a) =
    (if 58 <? x then 1 else if x <? 1 then 58 else x,
     if 18 <? y then 1 else if y <? 1 then 18 else y).
Proof.
  intros [Hx Hy] Hu. cbv zeta. rewrite move_next_position. unfold advance.
  unfold MAX_X, MAX_Y in *.
  assert (Hd : -1 <= fst (velocity a) <= 1 /\ -1 <= snd (velocity a) <= 1).
  { destruct Hu as [Hv | [Hv | [Hv | Hv]]]; rewrite Hv; cbn; lia. }
  rewrite (wrap_axis_step 60), (wrap_axis_step 20) by lia.
  reflexivity.
Qed.

Lemma move_next_steps_or_wraps_witness :
  position (Actor_move_next (mkActor "8" (58, 1) (1, 0))) = (1, 1).
Proof.
  apply (move_next_steps_or_wraps (mkActor "8" (58, 1) (1, 0))).
  - unfold interior, MAX_X, MAX_Y. cbn. lia.
  - right. left. reflexivity.
Defined.

(** X2: A move followed by a move with the opposite velocity brings an actor
    on an interior cell back to it, whatever the velocity. *)
Theorem move_next_there_and_back (a : Actor) (v : Pos) :
  interior (position a) ->
  position (Actor_move_next (set_velocity (opposite v)
              (Actor_move_next (set_velocity v a)))) = position a.
Proof.
  intros Hin. rewrite !move_next_position.
  cbn [velocity position set_velocity Actor_move_next set_position].
  exact (advance_back (position a) v Hin).
Qed.

Lemma move_next_there_and_back_witness :
  position (Actor_move_next (set_velocity (opposite (-7, 40))
              (Actor_move_next (set_velocity (-7, 40) (mkActor "8" (3, 18) (1, 0))))))
  = (3, 18).
Proof.
  apply (move_next_there_and_back (mkActor "8" (3, 18) (1, 0)) (-7, 40)).
  unfold interior, MAX_X, MAX_Y. cbn. lia.
Defined.

(** X3: [n + 1] moves with velocity [v] end where one move with velocity
    [(n + 1) * v] ends. *)
Theorem moves_add_up (n : nat) (a : Actor) :
  position (move_times (S n) a) =
  position (Actor_move_next
              (set_velocity (Z.of_nat (S n) * fst (velocity a),
                             Z.of_nat (S n) * snd (velocity a)) a)).
Proof. rewrite move_times_position. reflexivity. Qed.

Lemma wrap_axis_fixed_iff (dim old delta : Z) :
  2 < dim -> 1 <= old <= dim - 2 ->
  (wrap_axis dim old delta = old <-> (dim - 2 | delta)).
Proof.
  intros Hdim Hold. unfold wrap_axis. split.
  - intros H.
    pose proof (Z.div_mod (old + delta - 1) (dim - 2)) as Hdm.
    exists ((old + delta - 1) / (dim - 2)). lia.
  - intros [q ->].
    replace (old + q * (dim - 2) - 1) with (old - 1 + q * (dim - 2)) by lia.
    rewrite Z.mod_add by lia. rewrite Z.mod_small; lia.
Qed.

(** X4: With a unit velocity, an actor that started on an interior cell is
    back on it after [n >= 1] moves exactly when [n] is a multiple of 58
    (moving left or right) or of 18 (moving up or down). *)
Theorem moves_return_exactly (n : nat) (a : Actor) :
  interior (position a) -> unit_velocity (velocity a) ->
  (position (move_times (S n) a) = position a <->
   ((if fst (velocity a) =? 0 then 18 else 58) | Z.of_nat (S n))).
Proof.
  intros [Hx Hy] Hu. unfold MAX_X, MAX_Y in *.
  rewrite move_times_position. destruct (position a) as [x y].
  cbn [fst snd] in *.
  pose proof (fun d => wrap_axis_fixed_iff MAX_X x d) as H1.
  pose proof (fun d => wrap_axis_fixed_iff MAX_Y y d) as H2.
  unfold MAX_X, MAX_Y in *. change (60 - 2) with 58 in *. change (20 - 2) with 18 in *.
  assert (H0x : wrap_axis 60 x (Z.of_nat (S n) * 0) = x).
  { apply H1; try lia. rewrite Z.mul_0_r. apply Z.divide_0_r. }
  assert (H0y : wrap_axis 20 y (Z.of_nat (S n) * 0) = y).
  { apply H2; try lia. rewrite Z.mul_0_r. apply Z.divide_0_r. }
  destruct Hu as [Hv | [Hv | [Hv | Hv]]]; rewrite Hv; cbn [fst snd Z.eqb];
    rewrite ?H0x, ?H0y; split.
  - intros H. pose proof (f_equal snd H) as Hb. cbn [snd] in Hb.
    apply H2 in Hb; try lia. destruct Hb as [q Hq]. exists (- q). lia.
  - intros [q Hq]. f_equal. apply H2; try lia. exists (- q). lia.
  - intros H. pose proof (f_equal fst H) as Hb. cbn [fst] in Hb.
    apply H1 in Hb; try lia. destruct Hb as [q Hq]. exists q. lia.
  - intros [q Hq]. f_equal. apply H1; try lia. exists q. lia.
  - intros H. pose proof (f_equal snd H) as Hb. cbn [snd] in Hb.
    apply H2 in Hb; try lia. destruct Hb as [q Hq]. exists q. lia.
  - intros [q Hq]. f_equal. apply H2; try lia. exists q. lia.
  - intros H. pose proof (f_equal fst H) as Hb. cbn [fst] in Hb.
    apply H1 in Hb; try lia. destruct Hb as [q Hq]. exists (- q). lia.
  - intros [q Hq]. f_equal. apply H1; try lia. exists (- q). lia.
Qed.

Lemma moves_return_exactly_witness :
  position (move_times 18 (mkActor "8" (7, 7) (0, -1))) = (7, 7) <-> (18 | 18).
Proof.
  apply (moves_return_exactly 17 (mkActor "8" (7, 7) (0, -1))).
  - unfold interior, MAX_X, MAX_Y. cbn. lia.
  - left. reflexivity.
Defined.

(** ** Snake: errors and the sliding body *)

(** X5: [grow_head], [trim_tail] and [move_next] raise on the empty chain and
    only there; the body slice of the empty chain is empty. *)
Theorem snake_methods_fail_only_when_empty (d : Pos) (s : Snake) :
  (get_head s = None <-> s = []) /\
  (grow_head s = None <-> s = []) /\
  (trim_tail s = None <-> s = []) /\
  (Snake_move_next d s = None <-> s = []) /\
  get_body ([] : Snake) = [].
Proof.
  destruct s as [|head rest].
  - repeat split; reflexivity.
  - rewrite Snake_move_next_shape. cbn [get_head grow_head trim_tail].
    repeat split; intros H; discriminate H.
Qed.

Lemma map_removelast {A B : Type} (f : A -> B) (l : list A) :
  map f (removelast l) = removelast (map f l).
Proof.
  induction l as [|a [|b l] IH]; try reflexivity.
  change (removelast (a :: b :: l)) with (a :: removelast (b :: l)).
  cbn [map] in *. rewrite IH. reflexivity.
Qed.

(** X6: An ordinary move slides the chain: the head takes the direction and
    advances by it, keeping its glyph; every other place takes the position
    of the place before it, the old tail position being given up; the
    places behind the head show "#" where the old chain did, and the one
    right behind the head is a new "#" segment with no velocity. *)
Theorem move_next_slides_chain (d : Pos) (head : Actor) (rest : list Actor) :
  exists head' body',
    Snake_move_next d (head :: rest) = Some (head' :: body') /\
    position head' = advance (position head) d /\
    velocity head' = d /\ text head' = text head /\
    map position body' = removelast (map position (head :: rest)) /\
    map text body' = removelast ("#"%string :: map text rest) /\
    map velocity body' = removelast ((0, 0) :: map velocity rest) /\
    (rest <> [] ->
     hd_error body' = Some (mkActor "#" (position head) (0, 0))).
Proof.
  rewrite Snake_move_next_shape. do 2 eexists. split; [reflexivity|].
  rewrite move_next_position. cbn [velocity position text set_velocity
    Actor_move_next set_position].
  split; [reflexivity|]. split; [reflexivity|]. split; [reflexivity|].
  rewrite !map_removelast. cbn [map position text velocity set_position set_text
    Actor_init].
  repeat split.
  intros Hne. destruct rest as [|neck rest]; [congruence|]. reflexivity.
Qed.

Lemma move_next_slides_chain_witness :
  exists head' body',
    Snake_move_next (0, 1)
      [mkActor "8" (58, 18) (1, 0); mkActor "#" (57, 18) (0, 0)]
      = Some (head' :: body') /\
    position head' = advance (58, 18) (0, 1) /\
    velocity head' = (0, 1) /\ text head' = "8"%string /\
    map position body' = removelast [(58, 18); (57, 18)] /\
    map text body' = removelast ["#"%string; "#"%string] /\
    map velocity body' = removelast [(0, 0); (0, 0)] /\
    ([mkActor "#" (57, 18) (0, 0)] <> [] ->
     hd_error body' = Some (mkActor "#" (58, 18) (0, 0))).
Proof.
  exact (move_next_slides_chain (0, 1) (mkActor "8" (58, 18) (1, 0))
           [mkActor "#" (57, 18) (0, 0)]).
Defined.

Lemma advance_unit_moves (p d : Pos) :
  interior p -> unit_velocity d -> advance p d <> p.
Proof.
  intros [Hx Hy] Hu Heq. destruct p as [x y]. unfold advance in Heq.
  cbn [fst snd] in *. unfold MAX_X, MAX_Y in *.
  pose proof (f_equal fst Heq) as Ha. pose proof (f_equal snd Heq) as Hb.
  cbn [fst snd] in Ha, Hb.
  apply (wrap_axis_fixed_iff 60) in Ha; [|lia|lia].
  apply (wrap_axis_fixed_iff 20) in Hb; [|lia|lia].
  destruct Ha as [qa Ha], Hb as [qb Hb].
  destruct Hu as [Hv | [Hv | [Hv | Hv]]]; rewrite Hv in *; cbn [fst snd] in *; lia.
Qed.

(** X7: The bound 3 of the reversal is sharp: a chain of exactly two segments
    that reverses does not hit itself, the segment the head moves onto
    being the one the move trims. *)
Theorem reversal_of_two_segments_is_safe (d : Pos) (s : Snake) :
  List.length s = 2%nat -> unit_velocity d -> heading s d ->
  exists s1,
    Snake_move_next (opposite d) s = Some s1 /\
    List.length s1 = 2%nat /\ ~ collision_condition s1.
Proof.
  intros Hlen Hu (head & neck & tail & -> & _ & Hneck & Hhead).
  destruct tail; [|discriminate Hlen].
  rewrite Snake_move_next_shape. eexists. split; [reflexivity|].
  split; [reflexivity|].
  cbn [removelast]. rewrite collision_condition_hits.
  cbn [hits]. unfold same_position_as. rewrite move_next_position.
  cbn [position velocity set_velocity set_position].
  destruct (pos_eqb (advance (position head) (opposite d)) (position head)) eqn:E;
    [|discriminate].
  apply pos_eqb_eq in E. rewrite Hhead in E at 1.
  rewrite (advance_back _ _ Hneck) in E.
  exfalso. apply (advance_unit_moves (position neck) d Hneck Hu). congruence.
Qed.

Lemma reversal_of_two_segments_is_safe_witness :
  exists s1,
    Snake_move_next (opposite (1, 0))
      [mkActor "8" (40, 10) (1, 0); mkActor "#" (39, 10) (0, 0)] = Some s1 /\
    List.length s1 = 2%nat /\ ~ collision_condition s1.
Proof.
  apply (reversal_of_two_segments_is_safe (1, 0)
           [mkActor "8" (40, 10) (1, 0); mkActor "#" (39, 10) (0, 0)]).
  - reflexivity.
  - right. left. reflexivity.
  - do 3 eexists. split; [reflexivity|]. split; [reflexivity|].
    split; [|reflexivity]. unfold interior, MAX_X, MAX_Y. cbn. lia.
Defined.

(** ** Game: what every state of a session satisfies *)

Lemma Forall_removelast_cons {A : Type} (P : A -> Prop) (a : A) (l : list A) :
  P a -> Forall P l -> Forall P (removelast (a :: l)).
Proof. intros Ha Hl. apply Forall_removelast. constructor; assumption. Qed.

(** X8: The chain is as long as the score says: 11 segments and one more per
    point; the points are not negative and the score line reads
    "Score: " followed by them. *)
Theorem length_tracks_score (g : Game) :
  reachable g ->
  Z.of_nat (List.length (snake g)) = Z.of_nat SEGMENTS + 1 + points (score g) /\
  0 <= points (score g) /\
  text (score_actor (score g)) = ("Score: " ++ str_int (points (score g)))%string.
Proof.
  induction 1 as [raw g Hinit|g e g' log _ IH _ Htick].
  - unfold Game_init in Hinit. rewrite Snake_init_value in Hinit.
    injection Hinit as <-. cbn. repeat split; lia.
  - destruct IH as (Hlen & Hpos & Htext). rewrite tick_unfold in Htick.
    destruct (Snake_move_next (direction e) (snake g)) as [s1|] eqn:Hm;
      [|discriminate Htick].
    destruct (moved_snake_nonempty _ _ _ Hm) as (head & body & -> & Hl).
    cbv zeta in Htick.
    destruct (same_position_as head (position (food g)));
      injection Htick as <- _; cbn [snake score points add_points score_actor
        text set_text].
    + split; [|split; [lia|reflexivity]].
      change (List.length (Actor_move_next head
                :: set_position (position head) (set_text "#" Actor_init) :: body))
        with (S (List.length (head :: body))).
      rewrite Hl. lia.
    + rewrite Hl. auto.
Qed.

Lemma length_tracks_score_witness :
  Z.of_nat (List.length (snake coiled_game))
    = Z.of_nat SEGMENTS + 1 + points (score coiled_game) /\
  0 <= points (score coiled_game) /\
  text (score_actor (score coiled_game))
    = ("Score: " ++ str_int (points (score coiled_game)))%string.
Proof.
  apply (length_tracks_score coiled_game).
  apply (game_after_reachable (38, 9) coiled_script). vm_compute. reflexivity.
Defined.

(** X9: The glyphs never change: the head shows "8", every body segment shows
    "#" and has no velocity, the food shows "@" and has no velocity. *)
Theorem glyphs_are_kept (g : Game) :
  reachable g ->
  exists head body,
    snake g = head :: body /\ text head = "8"%string /\
    Forall (fun a => text a = "#"%string /\ velocity a = (0, 0)) body /\
    text (food g) = "@"%string /\ velocity (food g) = (0, 0).
Proof.
  induction 1 as [raw g Hinit|g e g' log _ IH _ Htick].
  - unfold Game_init in Hinit. rewrite Snake_init_value in Hinit.
    injection Hinit as <-. do 2 eexists. split; [reflexivity|].
    cbn [food]. repeat split. repeat constructor.
  - destruct IH as (head0 & body0 & Hs & Hhead & Hbody & Hft & Hfv).
    rewrite tick_unfold, Hs, Snake_move_next_shape in Htick. cbv zeta in Htick.
    assert (Hb : Forall (fun a => text a = "#"%string /\ velocity a = (0, 0))
              (removelast (set_position (position head0) (set_text "#" Actor_init)
                           :: body0))).
    { apply Forall_removelast_cons; [split; reflexivity|exact Hbody]. }
    match type of Htick with
    | context [if ?c then _ else _] => destruct c
    end; injection Htick as <- _; do 2 eexists;
      (split; [reflexivity|]); cbn [food];
      (split; [exact Hhead|]); (split; [|split; [exact Hft|exact Hfv]]).
    + constructor; [split; reflexivity|exact Hb].
    + exact Hb.
Qed.

Lemma glyphs_are_kept_witness :
  exists head body,
    snake coiled_game = head :: body /\ text head = "8"%string /\
    Forall (fun a => text a = "#"%string /\ velocity a = (0, 0)) body /\
    text (food coiled_game) = "@"%string /\ velocity (food coiled_game) = (0, 0).
Proof.
  apply (glyphs_are_kept coiled_game).
  apply (game_after_reachable (38, 9) coiled_script). vm_compute. reflexivity.
Defined.

(** X10: A feeding pass carries the head two cells along the direction: the
    move, then the growth.  The collision test sits between the two, so the
    flag only reflects the first cell; the chain gets the two cells the head
    left as new segments in front of the old body. *)
Theorem feeding_pass_moves_two_cells (g : Game) (e : Env) (head0 : Actor)
    (rest : list Actor) (s1 : Snake) :
  snake g = head0 :: rest ->
  Snake_move_next (direction e) (snake g) = Some s1 ->
  feeding_condition s1 (food g) ->
  exists g' log head' body1,
    tick e g = Some (tt, g', log) /\
    s1 = Actor_move_next (set_velocity (direction e) head0) :: body1 /\
    snake g' = head' :: mkActor "#" (advance (position head0) (direction e)) (0, 0)
               :: body1 /\
    position head' =
      advance (advance (position head0) (direction e)) (direction e) /\
    velocity head' = direction e /\
    keep_playing g' =
      (if hits (Actor_move_next (set_velocity (direction e) head0)) body1
       then false else keep_playing g).
Proof.
  intros Hs Hm Hf. rewrite Hs, Snake_move_next_shape in Hm. injection Hm as <-.
  apply feeding_condition_same in Hf.
  rewrite tick_unfold, Hs, Snake_move_next_shape. cbv zeta. rewrite Hf.
  do 4 eexists. split; [reflexivity|]. split; [reflexivity|].
  cbn [snake keep_playing]. split; [reflexivity|].
  rewrite !move_next_position.
  cbn [position velocity set_velocity set_position Actor_move_next].
  repeat split.
Qed.

Lemma feeding_pass_moves_two_cells_witness :
  exists g' log head' body1,
    tick turn_up coiled_game = Some (tt, g', log) /\
    coiled_up = Actor_move_next (set_velocity (direction turn_up)
                                   (mkActor "8" (39, 11) (-1, 0))) :: body1 /\
    snake g' = head' :: mkActor "#" (advance (position (mkActor "8" (39, 11) (-1, 0)))
                                       (direction turn_up)) (0, 0)
               :: body1 /\
    position head' =
      advance (advance (position (mkActor "8" (39, 11) (-1, 0))) (direction turn_up))
        (direction turn_up) /\
    velocity head' = direction turn_up /\
    keep_playing g' =
      (if hits (Actor_move_next (set_velocity (direction turn_up)
                                   (mkActor "8" (39, 11) (-1, 0)))) body1
       then false else keep_playing coiled_game).
Proof.
  apply (feeding_pass_moves_two_cells coiled_game turn_up
           (mkActor "8" (39, 11) (-1, 0))
           (map (fun p => mkActor "#" p (0, 0))
              [(40,11); (40,10); (39,10); (38,10); (37,10);
               (36,10); (35,10); (34,10); (33,10); (32,10)])
           coiled_up).
  - reflexivity.
  - reflexivity.
  - eexists. split; reflexivity.
Defined.

(** X11: Self-overlap does not always end the game: a state with the head on a
    body segment and the game still running can be reached, by eating on
    the cell in front of the body (food drawn onto (39,11); down, down,
    left, up), and the next pass can leave it running. *)
Theorem overlap_can_survive :
  exists g g' log,
    reachable g /\ keep_playing g = true /\ collision_condition (snake g) /\
    tick (mkEnv (0, -1) (0, 0)) g = Some (tt, g', log) /\
    keep_playing g' = true.
Proof.
  destruct (game_after (38, 10)
              [mkEnv (0, 1) (0, 0); mkEnv (0, 1) (0, 0); mkEnv (-1, 0) (0, 0);
               mkEnv (0, -1) (0, 0)]) as [g|] eqn:Hg;
    [|vm_compute in Hg; discriminate Hg].
  pose proof (game_after_reachable _ _ _ Hg) as Hr.
  vm_compute in Hg. injection Hg as <-.
  do 3 eexists. split; [exact Hr|]. split; [reflexivity|].
  split; [apply collision_condition_hits; reflexivity|].
  split; [vm_compute; reflexivity|reflexivity].
Qed.

(** ** Game.play: sessions in pieces *)





(** ** Score *)

Lemma str_int_parses (n : Z) :
  NilZero.int_of_string (str_int n) = Some (Z.to_int n).
Proof.
  unfold str_int. apply NilZero.isi; destruct n as [|p|p]; cbn; try discriminate;
    intros H; injection H as H; exact (DecimalPos.Unsigned.to_uint_nonnil p H).
Qed.

Lemma str_int_inj (n m : Z) : str_int n = str_int m -> n = m.
Proof.
  intros H. apply DecimalZ.to_int_inj.
  pose proof (str_int_parses n) as Hn. rewrite H, str_int_parses in Hn.
  congruence.
Qed.

(** X14: Points add up, and the score line shows them without loss: adding [p]
    then [q] is adding [p + q], and two scores whose lines read the same
    hold the same points. *)
Theorem score_line_is_faithful (p q : Z) (sc sc' : Score) :
  add_points q (add_points p sc) = add_points (p + q) sc /\
  points (add_points p sc) = points sc + p /\
  position (score_actor (add_points p sc)) = position (score_actor sc) /\
  (text (score_actor (add_points p sc)) = text (score_actor (add_points q sc')) ->
   points (add_points p sc) = points (add_points q sc')).
Proof.
  split; [|split; [reflexivity|split; [reflexivity|]]].
  - unfold add_points. cbn [points score_actor set_text text position velocity].
    rewrite Z.add_assoc. reflexivity.
  - unfold add_points. cbn [points score_actor set_text text].
    intros H. apply str_int_inj.
    cbn [String.append] in H. congruence.
Qed.

Lemma score_line_is_faithful_witness :
  points (add_points 2 Score_init) = points (add_points 1 (add_points 1 Score_init)).
Proof.
  destruct (score_line_is_faithful 2 1 Score_init (add_points 1 Score_init))
    as (_ & _ & _ & H).
  apply H. reflexivity.
Defined.

(** ** InputService *)

Lemma dict_get_set (k k' : Z) (v default : Pos) (d : Dict) :
  dict_get k default (dict_set k' v d) =
  if k' =? k then v else dict_get k default d.
Proof.
  induction d as [|[k0 v0] rest IH]; cbn [dict_set dict_get].
  - reflexivity.
  - destruct (k0 =? k') eqn:E0; cbn [dict_get].
    + apply Z.eqb_eq in E0. subst k0.
      destruct (k' =? k); reflexivity.
    + rewrite IH. destruct (k0 =? k) eqn:E1; [|reflexivity].
      apply Z.eqb_eq in E1. subst k0. rewrite Z.eqb_sym, E0. reflexivity.
Qed.

Lemma initial_lookup (c : Curses) (key : Z) (current : Pos) :
  dict_get key current (_directions (InputService_init c)) =
  if KEY_LEFT c =? key then (-1, 0)
  else if KEY_DOWN c =? key then (0, 1)
  else if KEY_RIGHT c =? key then (1, 0)
  else if KEY_UP c =? key then (0, -1)
  else current.
Proof.
  unfold InputService_init. cbn [_directions].
  rewrite !dict_get_set. reflexivity.
Qed.

(** X15: The four arrow keys, when their codes differ from each other and from
    ESC, select up, right, down and left; the vector returned is also the
    one remembered. *)
Theorem arrow_keys_select (c : Curses) (svc : InputService) :
  NoDup [KEY_UP c; KEY_RIGHT c; KEY_DOWN c; KEY_LEFT c; ESC c] ->
  _directions svc = _directions (InputService_init c) ->
  get_direction c (KEY_UP c) svc
    = Some ((0, -1), mkInputService (_directions svc) (0, -1)) /\
  get_direction c (KEY_RIGHT c) svc
    = Some ((1, 0), mkInputService (_directions svc) (1, 0)) /\
  get_direction c (KEY_DOWN c) svc
    = Some ((0, 1), mkInputService (_directions svc) (0, 1)) /\
  get_direction c (KEY_LEFT c) svc
    = Some ((-1, 0), mkInputService (_directions svc) (-1, 0)).
Proof.
  intros Hnd Hd. unfold get_direction. rewrite Hd, !initial_lookup.
  assert (Hne : KEY_UP c <> KEY_RIGHT c /\ KEY_UP c <> KEY_DOWN c /\
                KEY_UP c <> KEY_LEFT c /\ KEY_UP c <> ESC c /\
                KEY_RIGHT c <> KEY_DOWN c /\ KEY_RIGHT c <> KEY_LEFT c /\
                KEY_RIGHT c <> ESC c /\ KEY_DOWN c <> KEY_LEFT c /\
                KEY_DOWN c <> ESC c /\ KEY_LEFT c <> ESC c).
  { repeat match goal with
           | H : NoDup (_ :: _) |- _ => inversion H; clear H; subst
           end.
    cbn [In] in *. repeat split; intros E; rewrite E in *; tauto. }
  destruct Hne as (H1 & H2 & H3 & H4 & H5 & H6 & H7 & H8 & H9 & H10).
  rewrite !Z.eqb_refl.
  repeat match goal with
         | |- context [?a =? ?b] =>
             let E := fresh in
             destruct (a =? b) eqn:E;
             [apply Z.eqb_eq in E; congruence|clear E]
         end.
  repeat split.
Qed.

Lemma arrow_keys_select_witness :
  get_direction ncurses (KEY_UP ncurses) (InputService_init ncurses)
    = Some ((0, -1), mkInputService (_directions (InputService_init ncurses)) (0, -1)) /\
  get_direction ncurses (KEY_RIGHT ncurses) (InputService_init ncurses)
    = Some ((1, 0), mkInputService (_directions (InputService_init ncurses)) (1, 0)) /\
  get_direction ncurses (KEY_DOWN ncurses) (InputService_init ncurses)
    = Some ((0, 1), mkInputService (_directions (InputService_init ncurses)) (0, 1)) /\
  get_direction ncurses (KEY_LEFT ncurses) (InputService_init ncurses)
    = Some ((-1, 0), mkInputService (_directions (InputService_init ncurses)) (-1, 0)).
Proof.
  apply (arrow_keys_select ncurses (InputService_init ncurses)).
  - repeat constructor; cbn; intuition discriminate.
  - reflexivity.
Defined.

(** X16: Any key that is neither an arrow nor ESC (the -1 of a timeout among
    them) returns the direction returned last and changes nothing; ESC
    leaves the process whatever the state. *)
Theorem other_keys_keep_direction (c : Curses) (key : Z) (svc : InputService) :
  _directions svc = _directions (InputService_init c) ->
  ~ In key [KEY_UP c; KEY_RIGHT c; KEY_DOWN c; KEY_LEFT c; ESC c] ->
  get_direction c key svc = Some (_current svc, svc) /\
  get_direction c (ESC c) svc = None.
Proof.
  intros Hd Hnot. unfold get_direction. rewrite Z.eqb_refl. split; [|reflexivity].
  rewrite Hd, initial_lookup. cbn [In] in Hnot.
  destruct (key =? ESC c) eqn:E; [apply Z.eqb_eq in E; intuition congruence|].
  repeat match goal with
         | |- context [?a =? key] =>
             let E' := fresh in
             destruct (a =? key) eqn:E';
             [apply Z.eqb_eq in E'; tauto|clear E']
         end.
  rewrite <- Hd. destruct svc; reflexivity.
Qed.

Lemma other_keys_keep_direction_witness :
  get_direction ncurses (-1) (InputService_init ncurses)
    = Some (_current (InputService_init ncurses), InputService_init ncurses) /\
  get_direction ncurses (ESC ncurses) (InputService_init ncurses) = None.
Proof.
  apply (other_keys_keep_direction ncurses (-1) (InputService_init ncurses)).
  - reflexivity.
  - cbn. intuition discriminate.
Defined.

Lemma get_direction_unit (c : Curses) (key : Z) (svc svc' : InputService) (d : Pos) :
  _directions svc = _directions (InputService_init c) ->
  unit_velocity (_current svc) ->
  get_direction c key svc = Some (d, svc') ->
  d = _current svc' /\
  _directions svc' = _directions (InputService_init c) /\
  unit_velocity (_current svc').
Proof.
  intros Hd Hu. unfold get_direction.
  destruct (key =? ESC c); [discriminate|].
  intros H. injection H as <- <-. cbn [_current _directions].
  split; [reflexivity|]. split; [exact Hd|].
  rewrite Hd, initial_lookup. unfold unit_velocity.
  repeat match goal with
         | |- context [if ?b then _ else _] => destruct b
         end; auto.
Qed.

(** X17: Whatever keys are pressed, and whatever the key codes are, every
    direction [get_direction] returns is one of the four unit vectors. *)
Theorem directions_are_unit (c : Curses) (keys : list Z) :
  Forall unit_velocity (directions_of c keys (InputService_init c)).
Proof.
  assert (H : forall svc,
    _directions svc = _directions (InputService_init c) ->
    unit_velocity (_current svc) ->
    Forall unit_velocity (directions_of c keys svc)).
  { induction keys as [|key rest IH]; intros svc Hd Hu; cbn [directions_of].
    - constructor.
    - destruct (get_direction c key svc) as [[d svc']|] eqn:E; [|constructor].
      destruct (get_direction_unit c key svc svc' d Hd Hu E) as (-> & Hd' & Hu').
      constructor; [exact Hu'|exact (IH svc' Hd' Hu')]. }
  apply H; [reflexivity|]. right. left. reflexivity.
Qed.

Lemma directions_are_unit_witness :
  Forall unit_velocity
    (directions_of ncurses [260; -1; 113; 259; 27; 258] (InputService_init ncurses)) /\
  directions_of ncurses [260; -1; 113; 259; 27; 258] (InputService_init ncurses)
    = [(-1, 0); (-1, 0); (-1, 0); (0, -1)].
Proof.
  split; [|reflexivity].
  exact (directions_are_unit ncurses [260; -1; 113; 259; 27; 258]).
Defined.

(** ** The whole program: Game.play behind an InputService *)

Lemma get_direction_returns (c : Curses) (key : Z) (svc : InputService) :
  key <> ESC c ->
  exists d svc', get_direction c key svc = Some (d, svc').
Proof.
  intros Hne. unfold get_direction.
  destruct (key =? ESC c) eqn:E; [apply Z.eqb_eq in E; congruence|].
  do 2 eexists. reflexivity.
Qed.

(** X18: As long as ESC is not pressed, the loop fed by an [InputService] is the
    loop fed with the directions that service returns for the keys. *)
Theorem play_keys_is_play (c : Curses) (script : list (Z * (Z * Z)))
    (svc : InputService) (g : Game) :
  ~ In (ESC c) (map fst script) ->
  exists svc',
    play_keys c script svc g =
    match play (envs_of c script svc) g with
    | Some (g', log) => Returned svc' g' log
    | None => IndexError
    end.
Proof.
  revert svc g. induction script as [|[key raw] rest IH]; intros svc g Hno.
  - exists svc. reflexivity.
  - cbn [map fst In] in Hno.
    destruct (get_direction_returns c key svc) as (d & svc1 & Hd);
      [intros E; apply Hno; left; congruence|].
    cbn [play_keys envs_of]. rewrite Hd. cbn [play].
    destruct (keep_playing g); [|exists svc; reflexivity].
    destruct (tick (mkEnv d raw) g) as [[[[] g1] l1]|]; [|exists svc; reflexivity].
    destruct (IH svc1 g1) as (svc' & ->); [tauto|].
    exists svc'. destruct (play (envs_of c rest svc1) g1) as [[g2 l2]|]; reflexivity.
Qed.

Lemma play_keys_is_play_witness :
  exists svc',
    play_keys ncurses [(258, (0, 0)); (-1, (0, 0)); (260, (0, 0))]
      (InputService_init ncurses) fresh_game =
    match play (envs_of ncurses [(258, (0, 0)); (-1, (0, 0)); (260, (0, 0))]
                  (InputService_init ncurses)) fresh_game with
    | Some (g', log) => Returned svc' g' log
    | None => IndexError
    end.
Proof.
  apply (play_keys_is_play ncurses [(258, (0, 0)); (-1, (0, 0)); (260, (0, 0))]
           (InputService_init ncurses) fresh_game).
  cbn. intuition discriminate.
Defined.

(** X19: ESC quits at once: the passes before it are played and logged, the
    pass that reads it neither moves nor draws, nothing after it is read,
    and no game state is returned. *)
Theorem escape_exits (c : Curses) (before after : list (Z * (Z * Z)))
    (raw : Z * Z) (svc : InputService) (g g1 : Game) (log1 : list Event) :
  ~ In (ESC c) (map fst before) ->
  play (envs_of c before svc) g = Some (g1, log1) ->
  keep_playing g1 = true ->
  play_keys c (before ++ (ESC c, raw) :: after) svc g = SystemExit log1.
Proof.
  revert svc g log1. induction before as [|[key r] rest IH]; intros svc g log1 Hno Hp Hk.
  - cbn in Hp. injection Hp as <- <-. cbn [app play_keys]. rewrite Hk.
    unfold get_direction. rewrite Z.eqb_refl. reflexivity.
  - cbn [map fst In] in Hno.
    destruct (get_direction_returns c key svc) as (d & svc1 & Hd);
      [intros E; apply Hno; left; congruence|].
    cbn [envs_of] in Hp. rewrite Hd in Hp. cbn [play] in Hp.
    cbn [app play_keys]. rewrite Hd.
    destruct (keep_playing g) eqn:Hkg.
    + destruct (tick (mkEnv d r) g) as [[[[] g2] l2]|]; [|discriminate Hp].
      destruct (play (envs_of c rest svc1) g2) as [[g3 l3]|] eqn:Hp2;
        [|discriminate Hp].
      injection Hp as <- <-.
      rewrite (IH svc1 g2 l3); [reflexivity|tauto|exact Hp2|exact Hk].
    + injection Hp as <- _. congruence.
Qed.

Lemma escape_exits_witness :
  exists log1,
    play_keys ncurses ([(258, (0, 0))] ++ (ESC ncurses, (0, 0)) :: [(260, (0, 0))])
      (InputService_init ncurses) fresh_game = SystemExit log1 /\
    List.length (frames log1) = 1%nat.
Proof.
  destruct (play (envs_of ncurses [(258, (0, 0))] (InputService_init ncurses))
              fresh_game) as [[g1 log1]|] eqn:Hp;
    [|vm_compute in Hp; discriminate Hp].
  exists log1. split.
  - apply (escape_exits ncurses [(258, (0, 0))] [(260, (0, 0))] (0, 0)
             (InputService_init ncurses) fresh_game g1 log1).
    + cbn. intuition discriminate.
    + exact Hp.
    + vm_compute in Hp. injection Hp as <- _. reflexivity.
  - vm_compute in Hp. injection Hp as _ <-. reflexivity.
Defined.

Lemma play_keys_ended (c : Curses) (script : list (Z * (Z * Z)))
    (svc : InputService) (g : Game) :
  keep_playing g = false -> play_keys c script svc g = Returned svc g [].
Proof.
  intros Hk. destruct script as [|[key raw] rest]; cbn [play_keys];
    [|rewrite Hk]; reflexivity.
Qed.

Lemma reachable_long (g : Game) :
  reachable g -> (11 <= List.length (snake g))%nat.
Proof.
  induction 1 as [raw g Hinit|g e g' log _ IH _ Htick].
  - unfold Game_init in Hinit. rewrite Snake_init_value in Hinit.
    injection Hinit as <-. cbn. lia.
  - rewrite tick_unfold in Htick.
    destruct (Snake_move_next (direction e) (snake g)) as [s1|] eqn:Hm;
      [|discriminate Htick].
    destruct (moved_snake_nonempty _ _ _ Hm) as (head & body & -> & Hl).
    cbv zeta in Htick.
    destruct (same_position_as head (position (food g)));
      injection Htick as <- _; cbn [snake List.length] in *; lia.
Qed.

Lemma tick_heading (d : Pos) (raw : Z * Z) (g g' : Game) (log : list Event) :
  well_placed g -> (2 <= List.length (snake g))%nat ->
  tick (mkEnv d raw) g = Some (tt, g', log) -> heading (snake g') d.
Proof.
  intros (_ & Hall & _) Hlen. rewrite tick_unfold. cbn [direction sample].
  destruct (snake g) as [|head0 [|neck rest]]; try (cbn in Hlen; lia).
  inversion Hall as [|? ? Hhead0 _]; subst.
  destruct (heading_after_move d head0 neck rest Hhead0) as (s1 & Hm & Hh).
  rewrite Hm. destruct Hh as (head & neck' & tail & -> & Hv & Hn & Hp).
  cbv zeta.
  destruct (same_position_as head (position (food g)));
    intros H; injection H as <- _; cbn [snake].
  - do 3 eexists. split; [reflexivity|]. split; [exact Hv|].
    cbn [position set_position]. split; [|rewrite move_next_position, Hv; reflexivity].
    rewrite Hp. apply advance_interior.
  - do 3 eexists. split; [reflexivity|]. auto.
Qed.

Lemma session_invariant (c : Curses) (svc : InputService) (g : Game) :
  session c svc g ->
  _directions svc = _directions (InputService_init c) /\
  unit_velocity (_current svc) /\
  reachable g /\ heading (snake g) (_current svc).
Proof.
  induction 1 as [c raw g Hinit|c svc g key raw d svc' g' log _ IH Hk Hd Ht].
  - split; [reflexivity|]. split; [right; left; reflexivity|].
    split; [exact (reach_init raw g Hinit)|].
    unfold Game_init in Hinit.
    destruct Snake_init as [s|] eqn:Hs; [|discriminate Hinit].
    injection Hinit as <-. exact (heading_fresh_snake s Hs).
  - destruct IH as (Hdict & Hu & Hr & _).
    destruct (get_direction_unit c key svc svc' d Hdict Hu Hd) as (-> & Hdict' & Hu').
    split; [exact Hdict'|]. split; [exact Hu'|].
    split; [exact (reach_tick g _ g' log Hr Hk Ht)|].
    apply (tick_heading _ raw g g' log); [|pose proof (reachable_long g Hr); lia|exact Ht].
    exact (reachable_well_placed g Hr).
Qed.

Lemma reversal_hits (d : Pos) (s : Snake) :
  (3 <= List.length s)%nat -> heading s d ->
  exists head' body,
    Snake_move_next (opposite d) s = Some (head' :: body) /\
    hits head' body = true.
Proof.
  intros Hlen (head & neck & tail & -> & _ & Hneck & Hhead).
  destruct tail as [|third tail]; [cbn in Hlen; lia|].
  rewrite reversed_snake. do 2 eexists. split; [reflexivity|].
  apply hits_true_iff. exists neck. split; [right; left; reflexivity|].
  rewrite move_next_position. cbn [position velocity set_velocity].
  rewrite Hhead. apply advance_back. exact Hneck.
Qed.

(** X20: Nothing guards against turning back: at any point of a running
    session, a key for which [get_direction] returns the opposite of the
    direction it returned last ends the game in that very pass, and the
    keys after it are not read. *)
Theorem turning_back_ends_session (c : Curses) (svc svc' : InputService)
    (g : Game) (key : Z) (raw : Z * Z) (rest : list (Z * (Z * Z))) :
  session c svc g -> keep_playing g = true ->
  get_direction c key svc = Some (opposite (_current svc), svc') ->
  exists g' log,
    play_keys c ((key, raw) :: rest) svc g = Returned svc' g' log /\
    keep_playing g' = false /\ In EvCollide log /\
    List.length (frames log) = 1%nat /\
    _current svc' = opposite (_current svc).
Proof.
  intros Hs Hk Hd.
  destruct (session_invariant c svc g Hs) as (Hdict & Hu & Hr & Hh).
  pose proof (reachable_long g Hr) as Hlen.
  destruct (reversal_hits (_current svc) (snake g)) as (head' & body & Hm & Hhit);
    [lia|exact Hh|].
  destruct (get_direction_unit c key svc svc' _ Hdict Hu Hd) as (Hcur & _ & _).
  cbn [play_keys]. rewrite Hk, Hd, tick_unfold. cbn [direction sample].
  rewrite Hm. cbv zeta. rewrite Hhit.
  destruct (same_position_as head' (position (food g)));
    do 2 eexists; (split; [cbn [log_before];
      rewrite play_keys_ended by reflexivity; cbn [log_before]; reflexivity|]);
    cbn [keep_playing]; rewrite app_nil_r;
    (split; [reflexivity|]); (split; [cbn; auto|]); (split; [reflexivity|]);
    symmetry; exact Hcur.
Qed.

Lemma turning_back_ends_session_witness :
  exists g' log,
    play_keys ncurses [(260, (0, 0)); (259, (0, 0))]
      (InputService_init ncurses) fresh_game
      = Returned (mkInputService (_directions (InputService_init ncurses)) (-1, 0))
          g' log /\
    keep_playing g' = false /\ In EvCollide log /\
    List.length (frames log) = 1%nat /\
    _current (mkInputService (_directions (InputService_init ncurses)) (-1, 0))
      = opposite (_current (InputService_init ncurses)).
Proof.
  apply (turning_back_ends_session ncurses (InputService_init ncurses)
           (mkInputService (_directions (InputService_init ncurses)) (-1, 0))
           fresh_game 260 (0, 0) [(259, (0, 0))]).
  - apply (session_init ncurses (38, 9)). reflexivity.
  - reflexivity.
  - reflexivity.
Defined.

Lemma linked_removelast (ps : list Pos) : linked ps -> linked (removelast ps).
Proof.
  induction ps as [|p [|q [|r ps]] IH]; intros H; try exact I.
  change (removelast (p :: q :: r :: ps)) with (p :: removelast (q :: r :: ps)).
  destruct H as [Hpq Hrest]. specialize (IH Hrest).
  change (removelast (q :: r :: ps)) with (q :: removelast (r :: ps)) in *.
  split; assumption.
Qed.

Lemma tick_linked (d : Pos) (raw : Z * Z) (g g' : Game) (log : list Event) :
  unit_velocity d -> linked (map position (snake g)) ->
  tick (mkEnv d raw) g = Some (tt, g', log) ->
  linked (map position (snake g')).
Proof.
  intros Hu Hl. rewrite tick_unfold. cbn [direction sample].
  destruct (snake g) as [|head0 rest0] eqn:Hs; [discriminate|].
  rewrite Snake_move_next_shape. cbv zeta.
  assert (Hmoved : linked (advance (position head0) d
                           :: removelast (position head0 :: map position rest0))).
  { apply (linked_removelast (advance (position head0) d :: position head0
                              :: map position rest0)).
    split; [exists d; auto|exact Hl]. }
  remember (Actor_move_next (set_velocity d head0)) as head eqn:Hhead.
  remember (removelast (set_position (position head0) (set_text "#" Actor_init)
                        :: rest0)) as body eqn:Hbody.
  assert (Hpos : position head = advance (position head0) d /\ velocity head = d)
    by (subst head; split; reflexivity).
  assert (Hb : map position body = removelast (position head0 :: map position rest0))
    by (subst body; rewrite map_removelast; reflexivity).
  clear Hhead Hbody. destruct Hpos as [Hp Hv].
  destruct (same_position_as head (position (food g)));
    intros H; injection H as <- _; cbn [snake map];
    rewrite ?move_next_position, ?Hv, ?Hp, ?Hb;
    cbn [position set_position].
  - split; [exists d; auto|exact Hmoved].
  - exact Hmoved.
Qed.

(** X21: The chain is never torn: in every state of a session each segment is
    one unit step, on the torus, ahead of the segment behind it. *)
Theorem chain_stays_linked (c : Curses) (svc : InputService) (g : Game) :
  session c svc g -> linked (map position (snake g)).
Proof.
  induction 1 as [c raw g Hinit|c svc g key raw d svc' g' log Hs IH Hk Hd Ht].
  - unfold Game_init in Hinit. rewrite Snake_init_value in Hinit.
    injection Hinit as <-. cbn [snake map position].
    repeat (split; [exists (1, 0); split; [right; left; reflexivity|reflexivity]|]).
    exact I.
  - destruct (session_invariant c svc g Hs) as (Hdict & Hu & _ & _).
    destruct (get_direction_unit c key svc svc' d Hdict Hu Hd) as (-> & _ & Hu').
    exact (tick_linked _ raw g g' log Hu' IH Ht).
Qed.

Lemma chain_stays_linked_witness :
  linked (map position (snake fresh_game)).
Proof.
  apply (chain_stays_linked ncurses (InputService_init ncurses) fresh_game).
  apply (session_init ncurses (38, 9)). reflexivity.
Defined.

(** ** OutputService *)

(** X22: Each pass makes the window calls clear, border(0), one addstr per
    actor in the order food, score, head, body, with the row taken from y
    and the column from x, then refresh; every addstr starts in the window,
    on a row in [0, 18] and a column in [1, 58]. *)
Theorem draw_calls_of_a_pass (g : Game) (e : Env) :
  reachable g -> keep_playing g = true ->
  exists g' log actors,
    tick e g = Some (tt, g', log) /\
    actors_of g' = Some actors /\
    actors = food g' :: score_actor (score g') :: snake g' /\
    frames log = [render actors] /\
    draw_actors actors =
      Clear :: Border 0
      :: map (fun a => AddStr (snd (position a)) (fst (position a)) (text a)) actors
      ++ [Refresh] /\
    Forall starts_inside (draw_actors actors).
Proof.
  intros Hr _.
  pose proof (reachable_well_placed g Hr) as Hwp.
  destruct (tick_total e g (proj1 Hwp)) as (g' & log & Ht).
  pose proof (tick_well_placed e g g' log Hwp Ht) as (Hne & Hall & Hfood & Hscore).
  exists g', log, (food g' :: score_actor (score g') :: snake g').
  split; [exact Ht|].
  split; [unfold actors_of; destruct (snake g'); [congruence|reflexivity]|].
  split; [reflexivity|].
  split.
  { clear -Ht. rewrite tick_unfold in Ht.
    destruct (Snake_move_next (direction e) (snake g)) as [[|head body]|];
      try discriminate Ht.
    cbv zeta in Ht.
    destruct (same_position_as head (position (food g)));
      destruct (hits head body); injection Ht as <- <-; reflexivity. }
  assert (Hdraw : forall actors, draw_actors actors =
      Clear :: Border 0
      :: map (fun a => AddStr (snd (position a)) (fst (position a)) (text a)) actors
      ++ [Refresh]).
  { intros actors. unfold draw_actors. cbn [app]. do 3 f_equal.
    apply map_ext. intros a. destruct (position a); reflexivity. }
  split; [apply Hdraw|].
  rewrite Hdraw. constructor; [exact I|]. constructor; [exact I|].
  apply Forall_app. split; [|repeat constructor].
  apply Forall_map.
  constructor; [destruct Hfood; cbn; unfold MAX_X, MAX_Y in *; lia|].
  constructor; [rewrite Hscore; cbn; unfold MAX_X, MAX_Y; lia|].
  rewrite Forall_forall in Hall |- *. intros a Ha.
  destruct (Hall a Ha). cbn. unfold MAX_X, MAX_Y in *. lia.
Qed.

Lemma draw_calls_of_a_pass_witness :
  exists g' log actors,
    tick (mkEnv (1, 0) (0, 0)) fresh_game = Some (tt, g', log) /\
    actors_of g' = Some actors /\
    actors = food g' :: score_actor (score g') :: snake g' /\
    frames log = [render actors] /\
    draw_actors actors =
      Clear :: Border 0
      :: map (fun a => AddStr (snd (position a)) (fst (position a)) (text a)) actors
      ++ [Refresh] /\
    Forall starts_inside (draw_actors actors).
Proof.
  apply (draw_calls_of_a_pass fresh_game (mkEnv (1, 0) (0, 0))).
  - apply (reach_init (38, 9)). reflexivity.
  - reflexivity.
Defined.

(** ** Passes that do not feed, sessions that do not crash *)

(** X23: A pass in which the moved head is not on the food is the move alone:
    food and score are untouched, whatever sample the environment holds,
    and the game is ended exactly if it was or the head is on the body. *)
Theorem ordinary_pass_is_the_move (g : Game) (e : Env) (s1 : Snake) (raw : Z * Z) :
  Snake_move_next (direction e) (snake g) = Some s1 ->
  ~ feeding_condition s1 (food g) ->
  exists g' log,
    tick e g = Some (tt, g', log) /\
    tick (mkEnv (direction e) raw) g = Some (tt, g', log) /\
    snake g' = s1 /\ food g' = food g /\ score g' = score g /\
    (keep_playing g' = false <-> keep_playing g = false \/ collision_condition s1).
Proof.
  intros Hm Hf. rewrite !tick_unfold. cbn [direction sample]. rewrite Hm.
  destruct (moved_snake_nonempty _ _ _ Hm) as (head & body & -> & _).
  rewrite feeding_condition_same in Hf.
  cbv zeta.
  destruct (same_position_as head (position (food g))); [congruence|].
  do 2 eexists. split; [reflexivity|]. split; [reflexivity|].
  cbn [snake food score keep_playing].
  split; [reflexivity|]. split; [reflexivity|]. split; [reflexivity|].
  rewrite collision_condition_hits.
  destruct (hits head body); [tauto|]. split; [auto|].
  intros [H|H]; [exact H|discriminate H].
Qed.

Lemma ordinary_pass_is_the_move_witness :
  exists g' log,
    tick (mkEnv (1, 0) (0, 0)) fresh_game = Some (tt, g', log) /\
    tick (mkEnv (direction (mkEnv (1, 0) (0, 0))) (5, 5)) fresh_game
      = Some (tt, g', log) /\
    snake g' = mkActor "8" (41, 10) (1, 0)
               :: map (fun x => mkActor "#" (x, 10) (0, 0))
                    [40; 39; 38; 37; 36; 35; 34; 33; 32; 31] /\
    food g' = food fresh_game /\ score g' = score fresh_game /\
    (keep_playing g' = false <->
     keep_playing fresh_game = false \/
     collision_condition
       (mkActor "8" (41, 10) (1, 0)
        :: map (fun x => mkActor "#" (x, 10) (0, 0))
             [40; 39; 38; 37; 36; 35; 34; 33; 32; 31])).
Proof.
  apply (ordinary_pass_is_the_move fresh_game (mkEnv (1, 0) (0, 0))).
  - reflexivity.
  - intros (head & Hh & Hp). cbn in Hh. injection Hh as <-. discriminate Hp.
Defined.

(** X24: No session raises: from a fresh game, whatever keys come and whatever
    the samples are, every pass finds a head, so [play] returns a game and
    the loop behind an [InputService] ends by returning or by ESC. *)
Theorem session_never_raises (c : Curses) (svc : InputService) (g : Game)
    (script : list (Z * (Z * Z))) :
  session c svc g ->
  (exists g' log, play (envs_of c script svc) g = Some (g', log)) /\
  play_keys c script svc g <> IndexError.
Proof.
  revert svc g. induction script as [|[key raw] rest IH]; intros svc g Hs.
  - split; [do 2 eexists; reflexivity|discriminate].
  - destruct (session_invariant c svc g Hs) as (_ & _ & Hr & _).
    cbn [envs_of play_keys].
    destruct (get_direction c key svc) as [[d svc1]|] eqn:Hd.
    + cbn [play]. destruct (keep_playing g) eqn:Hk;
        [|split; [do 2 eexists; reflexivity|discriminate]].
      destruct (tick_total (mkEnv d raw) g (proj1 (reachable_well_placed g Hr)))
        as (g1 & l1 & Ht).
      rewrite Ht.
      destruct (IH svc1 g1 (session_pass c svc g key raw d svc1 g1 l1 Hs Hk Hd Ht))
        as ((g2 & l2 & Hp) & Hne).
      rewrite Hp. split; [do 2 eexists; reflexivity|].
      destruct (play_keys c rest svc1 g1); cbn [log_before]; congruence.
    + split; [do 2 eexists; reflexivity|].
      destruct (keep_playing g); discriminate.
Qed.

Lemma session_never_raises_witness :
  (exists g' log,
     play (envs_of ncurses [(258, (0, 0)); (260, (0, 0)); (259, (4, 4)); (27, (0, 0))]
             (InputService_init ncurses)) fresh_game = Some (g', log)) /\
  play_keys ncurses [(258, (0, 0)); (260, (0, 0)); (259, (4, 4)); (27, (0, 0))]
    (InputService_init ncurses) fresh_game <> IndexError.
Proof.
  apply (session_never_raises ncurses (InputService_init ncurses) fresh_game).
  apply (session_init ncurses (38, 9)). reflexivity.
Defined.

(** ** Food: relocation *)

(** X25: A relocation forgets where the food was: the new cell depends on the
    sample alone, glyph and velocity stay, and nothing keeps it off the
    cell it is on: for food on an interior cell one sample of the draw
    leaves it in place. *)
Theorem relocation_forgets (raw raw' : Z * Z) (f : Actor) :
  Food_move_random raw (Food_move_random raw' f) = Food_move_random raw f /\
  text (Food_move_random raw f) = text f /\
  velocity (Food_move_random raw f) = velocity f /\
  (interior (position f) ->
   exists r, in_sample_space r /\ Food_move_random r f = f).
Proof.
  split; [reflexivity|]. split; [reflexivity|]. split; [reflexivity|].
  intros [Hx Hy]. destruct f as [t [x y] v]. cbn [position fst snd] in *.
  unfold MAX_X, MAX_Y in *.
  exists (x - 1, y - 1). split.
  - unfold in_sample_space, MAX_X, MAX_Y. cbn [fst snd]. lia.
  - unfold Food_move_random, set_position, MAX_X, MAX_Y.
    cbn [text position velocity fst snd].
    rewrite !randint_index by lia. reflexivity.
Qed.

Lemma relocation_forgets_witness :
  exists r, in_sample_space r /\
    Food_move_random r (mkActor "@" (39, 10) (0, 0)) = mkActor "@" (39, 10) (0, 0).
Proof.
  destruct (relocation_forgets (0, 0) (0, 0) (mkActor "@" (39, 10) (0, 0)))
    as (_ & _ & _ & H).
  apply H. unfold interior, MAX_X, MAX_Y. cbn. lia.
Defined.
